(** * reflectclient: descriptor compiler, request synthesis and dispatch

    A shallow embedding of the Go package [reflectclient]
    (reflectclient.go, helpers, retryhandler.go, unmarshaler.go) and the
    properties of its specification.

    Conventions of the embedding.
    - A [reflect.Value] is a [Value]; the kinds covered are bool, the signed
      and unsigned integers, string, []byte, structs of such fields and
      pointers to such structs.  Floating point, maps, channels and nested
      structs are outside the model.
    - A Go run-time panic (nil dereference, reflect misuse) is the [Panic]
      result of the [Exec] monad; an [error] is the message it carries.
    - Go does not fix the order in which [range] visits a map.  Every [range]
      over a role map takes its visiting order from a [RangeOracle]; an
      oracle is [admissible] when each order it gives is a permutation of the
      entries of the map.
    - Field names are those of exported fields: reflect refuses to read or
      set a field that is not exported, and the model does not follow that;
      properties that depend on it assume [isExported].
    - A [Request] is the request as built before the first attempt; the state
      of its body reader between attempts is not followed.
    - Library functions whose code is not part of the package
      (url.Values.Encode, textproto.CanonicalMIMEHeaderKey, http.NewRequest,
      websocket.NewConfig, websocket.DialConfig) are Section variables. *)

From Stdlib Require Import ZArith Lia.
From Stdlib.Strings Require Import Byte.
From stdpp Require Import gmap strings list fin_maps pretty.

Open Scope string_scope.

(** ** Errors and panics *)

(** [errors.New(msg)]: an error is identified by its message. *)
Definition error := string.

Inductive Exec (A : Type) : Type :=
| Ok (a : A)
| Panic (msg : string).
Arguments Ok {A} a.
Arguments Panic {A} msg.

Definition bindE {A B} (m : Exec A) (k : A -> Exec B) : Exec B :=
  match m with
  | Ok a => k a
  | Panic msg => Panic msg
  end.

Notation "'do!' x <- m ; k" := (bindE m (fun x => k))
  (at level 10, x name, m at level 100, k at level 200).

(** ** Strings *)

(** [strings.Replace(s, old, new, -1)]: every non-overlapping occurrence of
    [old], scanning from the left.  [skip] counts the bytes of a matched
    occurrence that are still to be dropped.  With an empty [old] Go inserts
    [new] before every character and at the end; the package only ever
    passes a pattern of the form [{...}]. *)
Fixpoint replaceFrom (old new s : string) (skip : nat) : string :=
  match s with
  | EmptyString => EmptyString
  | String c s' =>
      match skip with
      | S k => replaceFrom old new s' k
      | O =>
          if String.prefix old s
          then new ++ replaceFrom old new s' (String.length old - 1)
          else String c (replaceFrom old new s' 0)
      end
  end.

Fixpoint intersperseNew (new s : string) : string :=
  match s with
  | EmptyString => new
  | String c s' => new ++ String c (intersperseNew new s')
  end.

Definition stringsReplace (s old new : string) : string :=
  match old with
  | EmptyString => intersperseNew new s
  | _ => replaceFrom old new s 0
  end.

(** [strings.Split(s, ",")]. *)
Fixpoint splitComma (s : string) : list string :=
  match s with
  | EmptyString => [EmptyString]
  | String c s' =>
      if Ascii.eqb c (Ascii.ascii_of_nat 44) then EmptyString :: splitComma s'
      else match splitComma s' with
           | [] => [String c EmptyString]
           | w :: ws => String c w :: ws
           end
  end.

Fixpoint joinSpace (l : list string) : string :=
  match l with
  | [] => EmptyString
  | [x] => x
  | x :: rest => x ++ " " ++ joinSpace rest
  end.

(** ** reflect.Value *)

Inductive Scalar :=
| SBool (b : bool)
| SInt (z : Z)                        (* Int, Int8, Int16, Int32, Int64 *)
| SUint (n : N)                       (* Uint, ..., Uint64, Uintptr *)
| SString (s : string)
| SBytes (b : option (list byte)).    (* []byte; None is the nil slice *)

Inductive Value :=
| VInvalid                                   (* the zero reflect.Value *)
| VScalar (x : Scalar)
| VStruct (fields : list (string * Scalar))
| VPtr (target : option (list (string * Scalar))).  (* pointer to a struct, or nil *)

Definition IsValid (v : Value) : bool :=
  match v with
  | VInvalid => false
  | _ => true
  end.

(** [fmt.Sprint] of the value held. *)
Definition SprintScalar (x : Scalar) : string :=
  match x with
  | SBool true => "true"
  | SBool false => "false"
  | SInt z => pretty z
  | SUint n => pretty n
  | SString s => s
  | SBytes None => "[]"
  | SBytes (Some bs) => "[" ++ joinSpace (map (fun b => pretty (Byte.to_N b)) bs) ++ "]"
  end.

Definition SprintFields (fs : list (string * Scalar)) : string :=
  "{" ++ joinSpace (map (fun f => SprintScalar (snd f)) fs) ++ "}".

(** [fmt.Sprint(v.Interface())]; [Interface] panics on the zero Value. *)
Definition SprintInterface (v : Value) : Exec string :=
  match v with
  | VInvalid => Panic "reflect: call of reflect.Value.Interface on zero Value"
  | VScalar x => Ok (SprintScalar x)
  | VStruct fs => Ok (SprintFields fs)
  | VPtr None => Ok "<nil>"
  | VPtr (Some fs) => Ok ("&" ++ SprintFields fs)
  end.

Fixpoint lookupField (fs : list (string * Scalar)) (name : string) : Value :=
  match fs with
  | [] => VInvalid
  | (n, x) :: rest => if String.eqb n name then VScalar x else lookupField rest name
  end.

(** [v.FieldByName(name)]: panics unless [v] is a struct; the zero Value
    when the struct has no such field. *)
Definition FieldByName (v : Value) (name : string) : Exec Value :=
  match v with
  | VStruct fs => Ok (lookupField fs name)
  | _ => Panic "reflect: call of reflect.Value.FieldByName on non-struct Value"
  end.

(** [v.Bytes()]: panics unless [v] is a byte slice. *)
Definition Bytes (v : Value) : Exec (option (list byte)) :=
  match v with
  | VScalar (SBytes b) => Ok b
  | _ => Panic "reflect: call of reflect.Value.Bytes on non-byte-slice Value"
  end.

Definition isEmptyValue (v : Value) : bool :=
  match v with
  (* case reflect.Array, reflect.Map, reflect.Slice, reflect.String: v.Len() == 0 *)
  | VScalar (SBytes None) => true
  | VScalar (SBytes (Some bs)) => Nat.eqb (length bs) 0
  | VScalar (SString s) => Nat.eqb (String.length s) 0
  (* case reflect.Bool: !v.Bool() *)
  | VScalar (SBool b) => negb b
  (* case reflect.Int ...: v.Int() == 0 *)
  | VScalar (SInt z) => Z.eqb z 0
  (* case reflect.Uint ...: v.Uint() == 0 *)
  | VScalar (SUint n) => N.eqb n 0
  (* case reflect.Interface, reflect.Ptr: v.IsNil() *)
  | VPtr None => true
  | VPtr (Some _) => false
  (* any other kind, Struct and Invalid among them *)
  | VStruct _ => false
  | VInvalid => false
  end.

(** helpers: [extractFieldValue], [elementValue], [in]. *)
Definition extractFieldValue (value : Value) (name : string) : Exec string :=
  do! f <- FieldByName value name; SprintInterface f.

Definition elementValue (v : Value) : Value :=
  match v with
  | VPtr None => VInvalid
  | VPtr (Some fs) => VStruct fs
  | _ => v
  end.

Fixpoint in_ (needle : string) (haystack : list string) : bool :=
  match haystack with
  | [] => false
  | s :: rest => if String.eqb s needle then true else in_ needle rest
  end.

(** ** reflect.Type and struct tags *)

(** A struct tag, already split into its key/value pairs; [Tag.Get] gives the
    value of the first pair with the key, or the empty string. *)
Definition Tag := list (string * string).

Fixpoint tagGet (tag : Tag) (key : string) : string :=
  match tag with
  | [] => EmptyString
  | (k, v) :: rest => if String.eqb k key then v else tagGet rest key
  end.

#[local] Unset Elimination Schemes.
Inductive GoType :=
| TBool
| TInt
| TUint
| TString
| TBytes                                            (* []byte *)
| TEmptyInterface                                   (* interface{} *)
| TError                                            (* error *)
| TStruct (name : string) (fields : list StructField)
| TPtr (elem : GoType)
| TFunc (ins outs : list GoType)
with StructField :=
| mkStructField (sfName : string) (sfType : GoType) (sfTag : Tag).
#[local] Set Elimination Schemes.

Definition sfName (f : StructField) : string := let 'mkStructField n _ _ := f in n.
Definition sfType (f : StructField) : GoType := let 'mkStructField _ t _ := f in t.
Definition sfTag (f : StructField) : Tag := let 'mkStructField _ _ t := f in t.

Definition isFuncKind (t : GoType) : bool :=
  match t with
  | TFunc _ _ => true
  | _ => false
  end.

(** [t] is the interface type [error], as Init tests the second result. *)
Definition isErrorType (t : GoType) : bool :=
  match t with
  | TError => true
  | _ => false
  end.

(** [t] is the type of a pointer to [websocket.Conn]; named struct types
    are identical when they have the same name. *)
Definition isWebSocketConnPtr (t : GoType) : bool :=
  match t with
  | TPtr (TStruct n _) => String.eqb n "websocket.Conn"
  | _ => false
  end.

Definition elementType (t : GoType) : GoType :=
  match t with
  | TPtr e => e
  | _ => t
  end.

(** ** Descriptors *)

Record Arg := mkArg { Name : string; OmitEmpty : bool }.

Record StructMeta := mkStructMeta {
  pathFields : gmap string Arg;
  formFields : gmap string Arg;
  queryFields : gmap string Arg;
  headerFields : gmap string Arg;
  bodyField : option Arg
}.

Record MethodArg := mkMethodArg {
  isStruct : bool;
  structMeta : option StructMeta
}.

Record MethodMeta := mkMethodMeta {
  returnType : GoType;
  methodArgs : list MethodArg;
  hasBody : bool;
  webSocket : bool;
  path : string;
  method : string;
  origin : string
}.

Definition HttpMethods : list string := ["GET"; "POST"; "PUT"; "DELETE"].

Definition TagMethod := "rc_method".
Definition TagPath := "rc_path".
Definition TagFeature := "rc_feature".
Definition TagName := "rc_name".
Definition TagOrigin := "rc_origin".
Definition TagOptions := "rc_options".
Definition FeaturePath := "path".
Definition FeatureField := "field".
Definition FeatureQuery := "query".
Definition FeatureHeader := "header".
Definition FeatureBody := "body".
Definition OptionOmitEmpty := "omitempty".

Definition ErrTwoValues : error := "Functions must return two values".
Definition ErrSecondNotError : error := "Second return value must be an error.".
Definition ErrUnsupportedMethod (m : string) : error := "Unsupported method: " ++ m.
Definition ErrOneBody : error := "Only one body per request is supported.".
Definition ErrFieldsAndBody : error := "Requests cannot have form fields and an explicit body.".
Definition ErrBodyFieldsIncompatible : error := "Body and fields are incompatible.".

(** [hasFields]; Init stores a StructMeta in every argument it marks
    isStruct, so the [None] case does not arise on a compiled descriptor. *)
Definition hasFields (m : MethodMeta) : bool :=
  existsb (fun arg =>
             isStruct arg &&
             match structMeta arg with
             | Some sm => negb (Nat.eqb (size (formFields sm)) 0)
             | None => false
             end) (methodArgs m).

(** ** Struct role extractor: [processStructArg] *)

Definition emptyStructMeta : StructMeta :=
  mkStructMeta ∅ ∅ ∅ ∅ None.

(** The options loop: OmitEmpty is set when some option is "omitempty". *)
Definition optionsOmitEmpty (optTag : string) : bool :=
  existsb (fun opt => String.eqb opt OptionOmitEmpty) (splitComma optTag).

(** One iteration of the loop over the fields of the record type.  The Go
    code stores the pointer [arg] first and sets [arg.OmitEmpty] afterwards;
    the stored entry is that same object, so it is built here with the flag
    already computed. *)
Definition processField (sm : StructMeta) (field : StructField) : error + StructMeta :=
  if isFuncKind (sfType field) then inr sm
  else
    let feature := tagGet (sfTag field) TagFeature in
    if String.eqb feature "" then inr sm
    else
      let name := if String.eqb (tagGet (sfTag field) TagName) ""
                  then sfName field else tagGet (sfTag field) TagName in
      let arg := mkArg name (optionsOmitEmpty (tagGet (sfTag field) TagOptions)) in
      if String.eqb feature FeaturePath then
        inr (mkStructMeta (<[sfName field := arg]> (pathFields sm)) (formFields sm)
                          (queryFields sm) (headerFields sm) (bodyField sm))
      else if String.eqb feature FeatureField then
        inr (mkStructMeta (pathFields sm) (<[sfName field := arg]> (formFields sm))
                          (queryFields sm) (headerFields sm) (bodyField sm))
      else if String.eqb feature FeatureQuery then
        inr (mkStructMeta (pathFields sm) (formFields sm)
                          (<[sfName field := arg]> (queryFields sm)) (headerFields sm) (bodyField sm))
      else if String.eqb feature FeatureHeader then
        inr (mkStructMeta (pathFields sm) (formFields sm)
                          (queryFields sm) (<[sfName field := arg]> (headerFields sm)) (bodyField sm))
      else if String.eqb feature FeatureBody then
        match bodyField sm with
        | Some _ => inl ErrOneBody
        | None => inr (mkStructMeta (pathFields sm) (formFields sm)
                                    (queryFields sm) (headerFields sm) (Some arg))
        end
      else inr sm.

Fixpoint processFields (sm : StructMeta) (fields : list StructField) : error + StructMeta :=
  match fields with
  | [] => inr sm
  | field :: rest =>
      match processField sm field with
      | inl err => inl err
      | inr sm' => processFields sm' rest
      end
  end.

Definition processStructArg (fields : list StructField) : error + StructMeta :=
  processFields emptyStructMeta fields.

(** ** Descriptor compiler: [Client.Init] *)

(** The loop over the parameter types; [hasBody] is [meta.hasBody] so far. *)
Fixpoint compileArgs (ins : list GoType) (hasBody : bool) : error + (list MethodArg * bool) :=
  match ins with
  | [] => inr ([], hasBody)
  | argType :: rest =>
      match elementType argType with
      | TStruct _ fields =>
          match processStructArg fields with
          | inl err => inl err
          | inr sm =>
              match bodyField sm with
              | Some _ =>
                  if hasBody then inl ErrOneBody
                  else match compileArgs rest true with
                       | inl err => inl err
                       | inr (args, hb) => inr (mkMethodArg true (Some sm) :: args, hb)
                       end
              | None =>
                  match compileArgs rest hasBody with
                  | inl err => inl err
                  | inr (args, hb) => inr (mkMethodArg true (Some sm) :: args, hb)
                  end
              end
          end
      | _ =>
          match compileArgs rest hasBody with
          | inl err => inl err
          | inr (args, hb) => inr (mkMethodArg false None :: args, hb)
          end
      end
  end.

(** The body of Init's loop for a field of function type, up to the point
    where the invoker is stored. *)
Definition compileField (fieldStruct : StructField) (ins outs : list GoType)
  : error + MethodMeta :=
  match outs with
  | [out0; out1] =>
      let ws := isWebSocketConnPtr out0 in
      let org := if ws then tagGet (sfTag fieldStruct) TagOrigin else EmptyString in
      if negb (isErrorType out1) then inl ErrSecondNotError
      else
        let m := tagGet (sfTag fieldStruct) TagMethod in
        if negb (in_ m HttpMethods) then inl (ErrUnsupportedMethod m)
        else
          let p := tagGet (sfTag fieldStruct) TagPath in
          match compileArgs ins false with
          | inl err => inl err
          | inr (args, hb) =>
              let meta := mkMethodMeta out0 args hb ws p m org in
              if hasBody meta && hasFields meta then inl ErrFieldsAndBody
              else inr meta
          end
  | _ => inl ErrTwoValues
  end.

(** What a field of the service record holds. *)
Inductive Slot :=
| SlotData (v : Value)                   (* a field that is not a function *)
| SlotNilFunc                            (* a function field not yet set *)
| SlotRequestFunc (meta : MethodMeta)    (* c.makeRequestFunc(fieldType, meta) *)
| SlotWebSocketFunc (meta : MethodMeta). (* c.makeWebSocketFunc(fieldType, meta) *)

Definition makeInvoker (meta : MethodMeta) : Slot :=
  if negb (webSocket meta) then SlotRequestFunc meta else SlotWebSocketFunc meta.

(** [Init] walks the fields of the service record in order and stores an
    invoker into each function field as soon as that field is compiled; it
    returns at the first error.  The result is the record as Init leaves it
    and the error returned. *)
Fixpoint Init (service : list (StructField * Slot))
  : list (StructField * Slot) * option error :=
  match service with
  | [] => ([], None)
  | (fieldStruct, fieldValue) :: rest =>
      match sfType fieldStruct with
      | TFunc ins outs =>
          match compileField fieldStruct ins outs with
          | inl err => (service, Some err)
          | inr meta =>
              let '(rest', r) := Init rest in
              ((fieldStruct, makeInvoker meta) :: rest', r)
          end
      | _ =>
          let '(rest', r) := Init rest in
          ((fieldStruct, fieldValue) :: rest', r)
      end
  end.

(** ** Request synthesis *)

(** [url.Values] and [http.Header] are both [map[string][]string]. *)
Record Values := mkValues { valuesMap : gmap string (list string) }.
Record Header := mkHeader { headerMap : gmap string (list string) }.

(** [m[key] = append(m[key], value)] *)
Definition appendAt (m : gmap string (list string)) (key value : string)
  : gmap string (list string) :=
  <[key := (default [] (m !! key) ++ [value])%list]> m.

Class FieldAdder (A : Type) := Add : A -> string -> string -> A.

#[export] Instance ValuesAdder : FieldAdder Values :=
  fun v key value => mkValues (appendAt (valuesMap v) key value).

Record RequestMeta := mkRequestMeta {
  rmPath : string;
  rmMethod : string;
  rmQuery : Values;
  rmFields : Values;
  rmHeaders : Header;
  rmBody : option (list byte)     (* None is the nil slice *)
}.

(** The role maps of a StructMeta, to tell the [range] statements of one
    argument apart. *)
Inductive Role := RPath | RQuery | RForm | RHeader.

(** The order in which the [range] over role map [m] of argument [argIdx]
    visits its entries. *)
Definition RangeOracle := nat -> Role -> gmap string Arg -> list (string * Arg).

Definition admissible (rho : RangeOracle) : Prop :=
  forall argIdx role m, rho argIdx role m ≡ₚ map_to_list m.

Definition canonicalOrder : RangeOracle := fun _ _ m => map_to_list m.
Definition reverseOrder : RangeOracle := fun _ _ m => reverse (map_to_list m).

(** [applyPathFields], over the visiting order of [nameMap]. *)
Fixpoint applyPathFields (value : Value) (path : string) (order : list (string * Arg))
  : Exec string :=
  match order with
  | [] => Ok path
  | (fn, n) :: rest =>
      if negb (IsValid value) || (OmitEmpty n && isEmptyValue value)
      then applyPathFields value path rest
      else
        do! s <- extractFieldValue value fn;
        applyPathFields value (stringsReplace path ("{" ++ Name n ++ "}") s) rest
  end.

Definition applyPathIndex (value : Value) (path : string) (index : nat) : Exec string :=
  do! s <- SprintInterface value;
  Ok (stringsReplace path ("{" ++ pretty (N.of_nat index) ++ "}") s).

(** The guard of [applyAdderFields]:
    [!value.IsValid() || n.OmitEmpty && isEmptyValue(value.FieldByName(fn))]. *)
Definition adderSkips (value : Value) (fn : string) (n : Arg) : Exec bool :=
  if negb (IsValid value) then Ok true
  else if OmitEmpty n then (do! f <- FieldByName value fn; Ok (isEmptyValue f))
  else Ok false.

(** [applyAdderFields], over the visiting order of [nameMap].  The adder is
    a Go map, updated in place; here the updated adder is returned. *)
Fixpoint applyAdderFields {A} `{FieldAdder A} (value : Value) (adder : A)
  (order : list (string * Arg)) : Exec A :=
  match order with
  | [] => Ok adder
  | (fn, n) :: rest =>
      do! skip <- adderSkips value fn n;
      if (skip : bool) then applyAdderFields value adder rest
      else
        do! s <- extractFieldValue value fn;
        applyAdderFields value (Add adder (Name n) s) rest
  end.

Section Synthesis.

(** [textproto.CanonicalMIMEHeaderKey], applied by [http.Header.Add]. *)
Variable canonicalMIMEHeaderKey : string -> string.
(** [url.Values.Encode]. *)
Variable valuesEncode : Values -> string.

#[export] Instance HeaderAdder : FieldAdder Header :=
  fun h key value => mkHeader (appendAt (headerMap h) (canonicalMIMEHeaderKey key) value).

(** The body-role step of one structured argument. *)
Definition applyBodyField (argValue : Value) (sm : StructMeta)
  (body : option (list byte)) : Exec (option (list byte)) :=
  match bodyField sm with
  | None => Ok body
  | Some bf =>
      do! val <- FieldByName argValue (Name bf);
      if IsValid val && negb (OmitEmpty bf && isEmptyValue val)
      then Bytes val
      else Ok body
  end.

(** The walk over the arguments. *)
Fixpoint walkArgs (rho : RangeOracle) (meta : MethodMeta) (argIdx : nat)
  (args : list Value) (rm : RequestMeta) : Exec RequestMeta :=
  match args with
  | [] => Ok rm
  | arg :: rest =>
      match methodArgs meta !! argIdx with
      | None => Panic "runtime error: index out of range"
      | Some methodArg =>
          if negb (isStruct methodArg) then
            do! p <- applyPathIndex arg (rmPath rm) argIdx;
            walkArgs rho meta (S argIdx) rest
              (mkRequestMeta p (rmMethod rm) (rmQuery rm) (rmFields rm)
                             (rmHeaders rm) (rmBody rm))
          else
            match structMeta methodArg with
            | None => Panic "runtime error: invalid memory address or nil pointer dereference"
            | Some sm =>
                let argValue := elementValue arg in
                do! p <- applyPathFields argValue (rmPath rm) (rho argIdx RPath (pathFields sm));
                do! q <- applyAdderFields argValue (rmQuery rm) (rho argIdx RQuery (queryFields sm));
                do! f <- applyAdderFields argValue (rmFields rm) (rho argIdx RForm (formFields sm));
                do! h <- applyAdderFields argValue (rmHeaders rm) (rho argIdx RHeader (headerFields sm));
                do! b <- applyBodyField argValue sm (rmBody rm);
                walkArgs rho meta (S argIdx) rest (mkRequestMeta p (rmMethod rm) q f h b)
            end
      end
  end.

Definition initialRequestMeta (meta : MethodMeta) : RequestMeta :=
  mkRequestMeta (path meta) (method meta) (mkValues ∅) (mkValues ∅) (mkHeader ∅) None.

(** The check after the walk: form fields become the body unless a body
    was set. *)
Definition finishRequestMeta (rm : RequestMeta) : error + RequestMeta :=
  if negb (Nat.eqb (size (valuesMap (rmFields rm))) 0) then
    match rmBody rm with
    | Some _ => inl ErrBodyFieldsIncompatible
    | None =>
        inr (mkRequestMeta (rmPath rm) (rmMethod rm) (rmQuery rm) (rmFields rm)
                           (rmHeaders rm)
                           (Some (String.list_byte_of_string (valuesEncode (rmFields rm)))))
    end
  else inr rm.

Definition buildRequestMeta (rho : RangeOracle) (meta : MethodMeta) (args : list Value)
  : Exec (error + RequestMeta) :=
  do! rm <- walkArgs rho meta 0 args (initialRequestMeta meta);
  Ok (finishRequestMeta rm).

End Synthesis.

(** ** Retry handlers and unmarshalers *)

(** The interface [RetryHandler]: [Retry] answers nil to ask for a resend
    and an error to surface it.  A handler is a pointer shared by the calls
    of a client, so [Retry] also gives the handler as it leaves it. *)
Class RetryHandler (H : Type) := Retry : H -> error -> H * option error.

Record BasicRetryHandler := mkBasicRetryHandler {
  maxRetries : Z;
  retryCount : Z
}.

Definition NewBasicRetryHandler (maxRetries : Z) : BasicRetryHandler :=
  mkBasicRetryHandler maxRetries 0.

#[export] Instance BasicRetry : RetryHandler BasicRetryHandler :=
  fun h err =>
    if (retryCount h <? maxRetries h)%Z then (h, None)
    else (h, Some err).

(** The interface [Unmarshaler]: [Unmarshal(in, obj)] fills the fresh
    instance [obj] of the given type from [in] and answers nil, or answers
    an error. *)
Definition Unmarshaler := list byte -> GoType -> option error.

(** ** Dispatch *)

Record Request := mkRequest {
  reqMethod : string;
  reqURL : string;
  reqQuery : Values;
  reqHeader : Header;
  reqBody : option (list byte)
}.

(** An [http.Response]: what [ioutil.ReadAll(resp.Body)] gives. *)
Record Response := mkResponse { respBody : error + list byte }.

(** A [websocket.Config]. *)
Record Config := mkConfig {
  cfgLocation : string;
  cfgOrigin : string;
  cfgQuery : Values;
  cfgHeader : Header
}.

Definition RequestTransformer := Request -> Request.

Record Client (H : Type) := mkClient {
  baseUrl : string;
  retryHandler : option H;
  unmarshaler : option Unmarshaler;
  requestTransformers : list RequestTransformer;
  (** [httpClient.Do]: the answer of the transport to the n-th attempt of a
      call. *)
  httpClient : nat -> Request -> error + Response
}.
Arguments mkClient {H}.
Arguments baseUrl {H}.
Arguments retryHandler {H}.
Arguments unmarshaler {H}.
Arguments requestTransformers {H}.
Arguments httpClient {H}.

(** The first result of a stub. *)
Inductive Payload :=
| PZero (t : GoType)                      (* reflect.Zero(meta.returnType) *)
| PBody (body : list byte)                (* reflect.ValueOf(body) *)
| PInstance (t : GoType) (body : list byte) (* the instance Unmarshal filled from body *)
| PConn (config : Config).                (* the connection dialled for config *)

(** How a call of a stub ends. *)
Inductive Outcome :=
| Returned (payload : Payload) (failure : option error)
| Panicked (msg : string).

(** A call observed after a bounded number of iterations of the send loop:
    the requests handed to the transport so far, the outcome if the call has
    ended, and the retry handler as the call leaves it. *)
Record CallResult (H : Type) := mkCallResult {
  sent : list Request;
  outcome : option Outcome;
  handlerAfter : option H
}.
Arguments mkCallResult {H}.
Arguments sent {H}.
Arguments outcome {H}.
Arguments handlerAfter {H}.

Definition applyRequestTransformers {H} (c : Client H) (req : Request) : Request :=
  fold_left (fun r t => t r) (requestTransformers c) req.

(** [for qn, ql := range m { for _, q := range ql { adder.Add(qn, q) } }];
    the entries of [m] have distinct keys, so their order is immaterial. *)
Definition addAll {A} `{FieldAdder A} (adder : A) (m : gmap string (list string)) : A :=
  fold_left (fun a e => fold_left (fun a' q => Add a' (fst e) q) (snd e) a)
            (map_to_list m) adder.

(** A value of type []byte returned for the first result is accepted by
    reflect.MakeFunc when it is assignable to the declared payload type. *)
Definition bytesAssignable (t : GoType) : bool :=
  match t with
  | TBytes | TEmptyInterface => true
  | _ => false
  end.

(** The connection returned for the first result is a pointer to
    websocket.Conn; reflect.MakeFunc accepts it when it is assignable to the
    declared payload type. *)
Definition connAssignable (t : GoType) : bool :=
  isWebSocketConnPtr t ||
  match t with
  | TEmptyInterface => true
  | _ => false
  end.

Definition returnRvals (meta : MethodMeta) (rvals : Payload * option error) : Outcome :=
  match fst rvals with
  | PBody _ =>
      if bytesAssignable (returnType meta) then Returned (fst rvals) (snd rvals)
      else Panicked "reflect: function created by MakeFunc using closure returned wrong type"
  | _ => Returned (fst rvals) (snd rvals)
  end.

Section Dispatch.

Context {H : Type} `{RetryHandler H}.

Variable canonicalMIMEHeaderKey : string -> string.
Variable valuesEncode : Values -> string.
(** [http.NewRequest(method, url, body)]; on an error the request it
    returns is nil. *)
Variable httpNewRequest : string -> string -> option (list byte) -> error + Request.
(** [websocket.NewConfig(server, origin)] and [websocket.DialConfig]. *)
Variable websocketNewConfig : string -> string -> error + Config.
Variable websocketDialConfig : Config -> option error.

Definition handleResponse (c : Client H) (meta : MethodMeta)
  (resp : option Response) (err : option error) : Payload * option error :=
  let rvals := (PZero (returnType meta), None) in
  match err with
  | Some e => (fst rvals, Some e)
  | None =>
      match resp with
      | Some r =>
          match respBody r with
          | inl e => (fst rvals, Some e)
          | inr body =>
              match unmarshaler c with
              | None => (PBody body, snd rvals)
              | Some u =>
                  match u body (returnType meta) with
                  | Some e => (fst rvals, Some e)
                  | None => (PInstance (returnType meta) body, snd rvals)
                  end
              end
          end
      | None => rvals
      end
  end.

(** The send loop [for { resp, err := client.Do(req) ... }], run for at
    most [fuel] iterations; [trace] lists the requests already sent. *)
Fixpoint sendLoop (c : Client H) (meta : MethodMeta) (req : Request)
  (fuel : nat) (trace : list Request) (h : option H) : CallResult H :=
  match fuel with
  | O => mkCallResult trace None h
  | S fuel' =>
      let trace' := (trace ++ [req])%list in
      match httpClient c (length trace) req with
      | inr resp =>
          mkCallResult trace'
            (Some (returnRvals meta (handleResponse c meta (Some resp) None))) h
      | inl err =>
          match h with
          | Some hs =>
              match Retry hs err with
              | (hs', None) => sendLoop c meta req fuel' trace' (Some hs')
              | (hs', Some err') =>
                  mkCallResult trace'
                    (Some (returnRvals meta (handleResponse c meta None (Some err'))))
                    (Some hs')
              end
          | None =>
              mkCallResult trace'
                (Some (returnRvals meta (handleResponse c meta None (Some err)))) None
          end
      end
  end.

(** The function [makeRequestFunc] builds, applied to [args]. *)
Definition makeRequestFunc (c : Client H) (meta : MethodMeta) (rho : RangeOracle)
  (fuel : nat) (args : list Value) : CallResult H :=
  match buildRequestMeta canonicalMIMEHeaderKey valuesEncode rho meta args with
  | Panic msg => mkCallResult [] (Some (Panicked msg)) (retryHandler c)
  | Ok (inl err) =>
      mkCallResult []
        (Some (returnRvals meta (handleResponse c meta None (Some err))))
        (retryHandler c)
  | Ok (inr rm) =>
      match httpNewRequest (rmMethod rm) (baseUrl c ++ rmPath rm) (rmBody rm) with
      | inl err =>
          (* c.handleResponse(meta, nil, err) is evaluated and its result
             dropped; req is nil and req.URL is read next *)
          let _ := handleResponse c meta None (Some err) in
          mkCallResult []
            (Some (Panicked "runtime error: invalid memory address or nil pointer dereference"))
            (retryHandler c)
      | inr req =>
          let req1 := mkRequest (reqMethod req) (reqURL req)
                        (addAll (reqQuery req) (valuesMap (rmQuery rm)))
                        (@addAll _ (HeaderAdder canonicalMIMEHeaderKey) (reqHeader req)
                           (headerMap (rmHeaders rm)))
                        (reqBody req) in
          let req2 := applyRequestTransformers c req1 in
          sendLoop c meta req2 fuel [] (retryHandler c)
      end
  end.

(** The function [makeWebSocketFunc] builds, applied to [args]. *)
Definition makeWebSocketFunc (c : Client H) (meta : MethodMeta) (rho : RangeOracle)
  (args : list Value) : Outcome :=
  match buildRequestMeta canonicalMIMEHeaderKey valuesEncode rho meta args with
  | Panic msg => Panicked msg
  | Ok (inl _) =>
      (* rm, _ := ...: the error is dropped, rm is nil and rm.path is read *)
      Panicked "runtime error: invalid memory address or nil pointer dereference"
  | Ok (inr rm) =>
      let rvals := (PZero (returnType meta), @None error) in
      match websocketNewConfig (baseUrl c ++ rmPath rm) (origin meta) with
      | inl err => Returned (fst rvals) (Some err)
      | inr config =>
          let config1 := mkConfig (cfgLocation config) (cfgOrigin config)
                           (addAll (cfgQuery config) (valuesMap (rmQuery rm)))
                           (@addAll _ (HeaderAdder canonicalMIMEHeaderKey) (cfgHeader config)
                              (headerMap (rmHeaders rm))) in
          match websocketDialConfig config1 with
          | Some err => Returned (fst rvals) (Some err)
          | None =>
              if connAssignable (returnType meta)
              then Returned (PConn config1) (snd rvals)
              else Panicked "reflect: function created by MakeFunc using closure returned wrong type"
          end
      end
  end.

(** Calling the stub a service field holds. *)
Definition callStub (c : Client H) (slot : Slot) (rho : RangeOracle) (fuel : nat)
  (args : list Value) : CallResult H :=
  match slot with
  | SlotRequestFunc meta => makeRequestFunc c meta rho fuel args
  | SlotWebSocketFunc meta =>
      mkCallResult [] (Some (makeWebSocketFunc c meta rho args)) (retryHandler c)
  | SlotNilFunc =>
      mkCallResult []
        (Some (Panicked "runtime error: invalid memory address or nil pointer dereference"))
        (retryHandler c)
  | SlotData _ => mkCallResult [] None (retryHandler c)
  end.

End Dispatch.


(** ** The builder *)

Record Builder (H : Type) := mkBuilder {
  b_baseUrl : string;
  b_retryHandler : option H;
  b_httpClient : option (nat -> Request -> error + Response);
  b_requestTransformers : list RequestTransformer;
  b_unmarshaler : option Unmarshaler
}.
Arguments mkBuilder {H}.
Arguments b_baseUrl {H}.
Arguments b_retryHandler {H}.
Arguments b_httpClient {H}.
Arguments b_requestTransformers {H}.
Arguments b_unmarshaler {H}.

Definition NewBuilder {H} : Builder H := mkBuilder EmptyString None None [] None.

Definition BaseUrl {H} (b : Builder H) (url : string) : Builder H :=
  mkBuilder url (b_retryHandler b) (b_httpClient b) (b_requestTransformers b)
            (b_unmarshaler b).

Definition AddRequestTransformer {H} (b : Builder H) (transformer : RequestTransformer)
  : Builder H :=
  mkBuilder (b_baseUrl b) (b_retryHandler b) (b_httpClient b)
            (b_requestTransformers b ++ [transformer])%list (b_unmarshaler b).

Definition SetUnmarshaler {H} (b : Builder H) (u : option Unmarshaler) : Builder H :=
  mkBuilder (b_baseUrl b) (b_retryHandler b) (b_httpClient b) (b_requestTransformers b) u.

Definition SetRetryHandler {H} (b : Builder H) (r : option H) : Builder H :=
  mkBuilder (b_baseUrl b) r (b_httpClient b) (b_requestTransformers b) (b_unmarshaler b).

Definition SetHttpClient {H} (b : Builder H)
  (c : option (nat -> Request -> error + Response)) : Builder H :=
  mkBuilder (b_baseUrl b) (b_retryHandler b) c (b_requestTransformers b) (b_unmarshaler b).

(** [Build]; [defaultClient] is [http.DefaultClient].  The error returned is
    always nil. *)
Definition Build {H} (defaultClient : nat -> Request -> error + Response) (b : Builder H)
  : Client H * option error :=
  (mkClient (b_baseUrl b) (b_retryHandler b) (b_unmarshaler b) (b_requestTransformers b)
            defaultClient,
   None).

(** ** Notions used to state the properties *)

(** A field to which [processStructArg] gives the body role. *)
Definition isBodyRole (f : StructField) : bool :=
  negb (isFuncKind (sfType f)) && String.eqb (tagGet (sfTag f) TagFeature) FeatureBody.

(** 1 when a body field is recorded, 0 otherwise. *)
Definition bodyCount (b : option Arg) : nat :=
  match b with
  | Some _ => 1
  | None => 0
  end.

(** The number of body-role fields of a record type. *)
Fixpoint bodyRoleFields (fields : list StructField) : nat :=
  match fields with
  | [] => 0
  | f :: rest => (if isBodyRole f then 1 else 0) + bodyRoleFields rest
  end.

(** The number of body-role fields over the structured parameters of a stub. *)
Fixpoint descriptorBodyFields (ins : list GoType) : nat :=
  match ins with
  | [] => 0
  | t :: rest =>
      match elementType t with
      | TStruct _ fields => bodyRoleFields fields
      | _ => 0
      end + descriptorBodyFields rest
  end.

(** What a successful Init leaves in a field: the invoker of its descriptor
    in a function field, the field as it was otherwise. *)
Definition bindField (fs : StructField * Slot) : StructField * Slot :=
  match sfType (fst fs) with
  | TFunc ins outs =>
      match compileField (fst fs) ins outs with
      | inr meta => (fst fs, makeInvoker meta)
      | inl _ => fs
      end
  | _ => fs
  end.

Definition isFunctionField (fs : StructField * Slot) : bool := isFuncKind (sfType (fst fs)).

(** The external names of a role map. *)
Definition externalNames (m : gmap string Arg) : list string :=
  map (fun e => Name (snd e)) (map_to_list m).

(** A structured argument whose synthesis cannot depend on the visiting
    order: at most one path-role field, and within each of the query,
    form-field and header roles pairwise distinct external names (header
    names compared as http.Header.Add stores them). *)
Definition orderIndependent (canon : string -> string) (sm : StructMeta) : Prop :=
  size (pathFields sm) <= 1 /\
  NoDup (externalNames (queryFields sm)) /\
  NoDup (externalNames (formFields sm)) /\
  NoDup (map canon (externalNames (headerFields sm))).

Definition distinctNames (canon : string -> string) (meta : MethodMeta) : Prop :=
  Forall (fun arg => match structMeta arg with
                     | Some sm => orderIndependent canon sm
                     | None => True
                     end) (methodArgs meta).

(** What one iteration of [applyAdderFields] asks of the adder: nothing
    when the field is skipped, or the pair to add. *)
Definition adderStep (value : Value) (e : string * Arg) : Exec (option (string * string)) :=
  do! skip <- adderSkips value (fst e) (snd e);
  if (skip : bool) then Ok None
  else do! s <- extractFieldValue value (fst e); Ok (Some (Name (snd e), s)).

Definition addPair {A} `{FieldAdder A} (adder : A) (o : option (string * string)) : A :=
  match o with
  | Some (k, v) => Add adder k v
  | None => adder
  end.

(** [strings.Join(l, ",")], to state what the options loop recognises. *)
Fixpoint joinComma (l : list string) : string :=
  match l with
  | [] => EmptyString
  | [x] => x
  | x :: rest => x ++ "," ++ joinComma rest
  end.

Fixpoint hasComma (s : string) : bool :=
  match s with
  | EmptyString => false
  | String c s' => Ascii.eqb c (Ascii.ascii_of_nat 44) || hasComma s'
  end.

(** The Arg that [processStructArg] builds for a field. *)
Definition fieldArg (f : StructField) : Arg :=
  mkArg (if String.eqb (tagGet (sfTag f) TagName) "" then sfName f
         else tagGet (sfTag f) TagName)
        (optionsOmitEmpty (tagGet (sfTag f) TagOptions)).

(** A field that is not of function type and is tagged with the feature. *)
Definition hasFeature (feature : string) (f : StructField) : bool :=
  negb (isFuncKind (sfType f)) && String.eqb (tagGet (sfTag f) TagFeature) feature.

Definition roleFeature (r : Role) : string :=
  match r with
  | RPath => FeaturePath
  | RQuery => FeatureQuery
  | RForm => FeatureField
  | RHeader => FeatureHeader
  end.

Definition roleFields (r : Role) (sm : StructMeta) : gmap string Arg :=
  match r with
  | RPath => pathFields sm
  | RQuery => queryFields sm
  | RForm => formFields sm
  | RHeader => headerFields sm
  end.

(** A field the role extractor passes over: of function type, without a
    feature tag, or tagged with a feature it does not know. *)
Definition isIgnored (f : StructField) : bool :=
  isFuncKind (sfType f) ||
  negb (in_ (tagGet (sfTag f) TagFeature)
          [FeaturePath; FeatureField; FeatureQuery; FeatureHeader; FeatureBody]).

(** Whether some structured parameter of a stub has a form-field role. *)
Fixpoint descriptorHasFields (ins : list GoType) : bool :=
  match ins with
  | [] => false
  | t :: rest =>
      match elementType t with
      | TStruct _ fields => existsb (hasFeature FeatureField) fields
      | _ => false
      end || descriptorHasFields rest
  end.

(** A field of the service record that Init accepts: not a function, or a
    stub whose descriptor compiles. *)
Definition fieldCompiles (fs : StructField * Slot) : bool :=
  match sfType (fst fs) with
  | TFunc ins outs =>
      match compileField (fst fs) ins outs with
      | inr _ => true
      | inl _ => false
      end
  | _ => true
  end.

(** Whether a string holds an opening brace. *)
Fixpoint hasBrace (s : string) : bool :=
  match s with
  | EmptyString => false
  | String c s' => Ascii.eqb c (Ascii.ascii_of_nat 123) || hasBrace s'
  end.

(** The values that the fields of a struct contribute under the key [k],
    in visiting order: those of the entries named [k] that are not left
    out by the omit rule. *)
Fixpoint keyValues (fs : list (string * Scalar)) (order : list (string * Arg)) (k : string)
  : list string :=
  match order with
  | [] => []
  | (fn, n) :: rest =>
      match lookupField fs fn with
      | VScalar x =>
          if OmitEmpty n && isEmptyValue (VScalar x) then keyValues fs rest k
          else if String.eqb (Name n) k then SprintScalar x :: keyValues fs rest k
          else keyValues fs rest k
      | _ => keyValues fs rest k
      end
  end.

(** A handler that clears the next [n] failures, whatever it does after. *)
Fixpoint clearsRetries {H} `{RetryHandler H} (n : nat) (h : H) : Prop :=
  match n with
  | O => True
  | S n' => forall e, exists h', Retry h e = (h', None) /\ clearsRetries n' h'
  end.

(** A call of one of the builder's methods, and a chain of such calls on a
    new builder. *)
Inductive BuilderOp (H : Type) :=
| OpBaseUrl (url : string)
| OpAddRequestTransformer (t : RequestTransformer)
| OpSetUnmarshaler (u : option Unmarshaler)
| OpSetRetryHandler (r : option H)
| OpSetHttpClient (c : option (nat -> Request -> error + Response)).
Arguments OpBaseUrl {H}.
Arguments OpAddRequestTransformer {H}.
Arguments OpSetUnmarshaler {H}.
Arguments OpSetRetryHandler {H}.
Arguments OpSetHttpClient {H}.

Definition applyOp {H} (b : Builder H) (op : BuilderOp H) : Builder H :=
  match op with
  | OpBaseUrl url => BaseUrl b url
  | OpAddRequestTransformer t => AddRequestTransformer b t
  | OpSetUnmarshaler u => SetUnmarshaler b u
  | OpSetRetryHandler r => SetRetryHandler b r
  | OpSetHttpClient c => SetHttpClient b c
  end.

Definition runOps {H} (ops : list (BuilderOp H)) : Builder H :=
  fold_left applyOp ops NewBuilder.

(** The transformers registered by a chain of calls, in the order of the
    calls. *)
Fixpoint registered {H} (ops : list (BuilderOp H)) : list RequestTransformer :=
  match ops with
  | [] => []
  | OpAddRequestTransformer t :: rest => t :: registered rest
  | _ :: rest => registered rest
  end.

(** A name that begins with an upper-case ASCII letter is exported. *)
Definition isExported (name : string) : bool :=
  match name with
  | EmptyString => false
  | String c _ =>
      Nat.leb 65 (Ascii.nat_of_ascii c) && Nat.leb (Ascii.nat_of_ascii c) 90
  end.

(** Every function field of a service record is exported. *)
Definition stubsExported (service : list (StructField * Slot)) : bool :=
  forallb (fun fs => negb (isFunctionField fs) || isExported (sfName (fst fs))) service.



(** ** Declarations used as examples *)

Module Examples.

(** type TestArg struct, one field: Id int64, rc_feature path, rc_name id *)
Definition TestArg : GoType :=
  TStruct "TestArg"
    [mkStructField "Id" TInt [("rc_feature", "path"); ("rc_name", "id")]].

(** Path: func of a pointer to TestArg giving (interface{}, error);
    rc_method GET, rc_path /pre/{id}/post *)
Definition PathStub : StructField :=
  mkStructField "Path" (TFunc [TPtr TestArg] [TEmptyInterface; TError])
    [("rc_method", "GET"); ("rc_path", "/pre/{id}/post")].

Definition PathMeta : MethodMeta :=
  mkMethodMeta TEmptyInterface
    [mkMethodArg true
       (Some (mkStructMeta {["Id" := mkArg "id" false]} ∅ ∅ ∅ None))]
    false false "/pre/{id}/post" "GET" "".

(** Index: func(string, string, string) giving ([]byte, error);
    rc_method GET, rc_path /{0}/{2}/{1} *)
Definition IndexStub : StructField :=
  mkStructField "Index" (TFunc [TString; TString; TString] [TBytes; TError])
    [("rc_method", "GET"); ("rc_path", "/{0}/{2}/{1}")].

Definition IndexMeta : MethodMeta :=
  mkMethodMeta TBytes
    [mkMethodArg false None; mkMethodArg false None; mkMethodArg false None]
    false false "/{0}/{2}/{1}" "GET" "".

(** type UserId struct, one field: Id int64, rc_feature path, rc_name id,
    rc_options omitempty *)
Definition UserId : GoType :=
  TStruct "UserId"
    [mkStructField "Id" TInt
       [("rc_feature", "path"); ("rc_name", "id"); ("rc_options", "omitempty")]].

(** UserByStruct: func of a pointer to UserId giving ([]byte, error);
    rc_method GET, rc_path /user/{id} *)
Definition UserStub : StructField :=
  mkStructField "UserByStruct" (TFunc [TPtr UserId] [TBytes; TError])
    [("rc_method", "GET"); ("rc_path", "/user/{id}")].

Definition UserMeta : MethodMeta :=
  mkMethodMeta TBytes
    [mkMethodArg true
       (Some (mkStructMeta {["Id" := mkArg "id" true]} ∅ ∅ ∅ None))]
    false false "/user/{id}" "GET" "".

(** type UserQuery struct, one field: Id int64, rc_feature query,
    rc_name id, rc_options omitempty *)
Definition UserQuery : GoType :=
  TStruct "UserQuery"
    [mkStructField "Id" TInt
       [("rc_feature", "query"); ("rc_name", "id"); ("rc_options", "omitempty")]].

Definition UserQueryStub : StructField :=
  mkStructField "UserByQuery" (TFunc [TPtr UserQuery] [TBytes; TError])
    [("rc_method", "GET"); ("rc_path", "/user")].

Definition UserQueryMeta : MethodMeta :=
  mkMethodMeta TBytes
    [mkMethodArg true
       (Some (mkStructMeta ∅ ∅ {["Id" := mkArg "id" true]} ∅ None))]
    false false "/user" "GET" "".

(** Stand-ins for the library functions in closed examples; what the
    examples show does not depend on them. *)
Definition plainKey : string -> string := fun k => k.
Definition plainEncode : Values -> string := fun _ => "encoded".
Definition newRequestOk (m u : string) (b : option (list byte)) : error + Request :=
  inr (mkRequest m u (mkValues ∅) (mkHeader ∅) b).
(** A NewRequest that rejects one URL, as url.Parse rejects a bad escape. *)
Definition newRequestStrict (m u : string) (b : option (list byte)) : error + Request :=
  if String.eqb u "http://api/%zz/c/b" then inl "invalid URL escape"
  else newRequestOk m u b.
Definition newConfigOk (server org : string) : error + Config :=
  inr (mkConfig server org (mkValues ∅) (mkHeader ∅)).
Definition dialOk : Config -> option error := fun _ => None.

(** A transport that fails on every attempt. *)
Definition failingTransport : nat -> Request -> error + Response :=
  fun _ _ => inl "connection refused".

Definition retryClient (n : Z) : Client BasicRetryHandler :=
  mkClient "http://api" (Some (NewBasicRetryHandler n)) None [] failingTransport.

Definition abcArgs : list Value :=
  [VScalar (SString "a"); VScalar (SString "b"); VScalar (SString "c")].

(** type FormBody struct with a form field and a body field:
    Field string, rc_feature field, rc_name field;
    Body []byte, rc_feature body *)
Definition FormBodyFields : list StructField :=
  [mkStructField "Field" TString [("rc_feature", "field"); ("rc_name", "field")];
   mkStructField "Body" TBytes [("rc_feature", "body")]].

Definition FormBodyMeta : StructMeta :=
  mkStructMeta ∅ {["Field" := mkArg "field" false]} ∅ ∅ (Some (mkArg "Body" false)).

(** Descriptors over FormBody; Init refuses to compile them, they are
    built by hand to reach the check made at call time. *)
Definition ConflictMeta : MethodMeta :=
  mkMethodMeta TBytes [mkMethodArg true (Some FormBodyMeta)]
    true false "/submit" "POST" "".

Definition ConflictSocketMeta : MethodMeta :=
  mkMethodMeta (TPtr (TStruct "websocket.Conn" [])) [mkMethodArg true (Some FormBodyMeta)]
    true true "/echo" "GET" "http://origin".

Definition conflictArgs : list Value :=
  [VPtr (Some [("Field", SString "x"); ("Body", SBytes (Some ["001"%byte]))])].

(** The same call with a nil Body. *)
Definition nilBodyArgs : list Value :=
  [VPtr (Some [("Field", SString "x"); ("Body", SBytes None)])].

Definition plainClient : Client BasicRetryHandler :=
  mkClient "http://api" None None [] failingTransport.

(** The declarations of TestMultipleBodySameArg and
    TestMultipleBodyDiffArgs. *)
Definition TwoBodies : GoType :=
  TStruct "BodyArg"
    [mkStructField "Body" TBytes [("rc_feature", "body")];
     mkStructField "Body1" TBytes [("rc_feature", "body")]].

Definition OneBody : GoType :=
  TStruct "BodyArg" [mkStructField "Body" TBytes [("rc_feature", "body")]].

Definition SameArgStub : StructField :=
  mkStructField "Call" (TFunc [TPtr TwoBodies] [TBytes; TError]) [("rc_method", "POST")].

Definition DiffArgsStub : StructField :=
  mkStructField "Call" (TFunc [TPtr OneBody; TPtr OneBody] [TBytes; TError])
    [("rc_method", "POST")].

(** The service of TestNonFunctionField: a field Id int and a stub Call. *)
Definition IdField : StructField := mkStructField "Id" TInt [].

Definition CallStub : StructField :=
  mkStructField "Call" (TFunc [] [TEmptyInterface; TError])
    [("rc_method", "GET"); ("rc_path", "/test")].

Definition CallMeta : MethodMeta :=
  mkMethodMeta TEmptyInterface [] false false "/test" "GET" "".

Definition TestService : list (StructField * Slot) :=
  [(IdField, SlotData (VScalar (SInt 0))); (CallStub, SlotNilFunc)].

(** A stub with an unsupported method, as in TestUnsupportedMethod. *)
Definition BogusStub : StructField :=
  mkStructField "Method" (TFunc [] [TEmptyInterface; TError]) [("rc_method", "BOGUS")].

(** A service whose first stub is valid and whose second is not. *)
Definition HalfValidService : list (StructField * Slot) :=
  [(CallStub, SlotNilFunc); (BogusStub, SlotNilFunc)].

(** A record with two query-role fields under one external name:
    A int64, rc_feature query, rc_name x;  B int64, rc_feature query, rc_name x *)
Definition PairFields : list StructField :=
  [mkStructField "A" TInt [("rc_feature", "query"); ("rc_name", "x")];
   mkStructField "B" TInt [("rc_feature", "query"); ("rc_name", "x")]].

Definition PairStub : StructField :=
  mkStructField "Pair" (TFunc [TPtr (TStruct "Pair" PairFields)] [TBytes; TError])
    [("rc_method", "GET"); ("rc_path", "/pair")].

Definition PairMeta : MethodMeta :=
  mkMethodMeta TBytes
    [mkMethodArg true
       (Some (mkStructMeta ∅ ∅ {["A" := mkArg "x" false; "B" := mkArg "x" false]} ∅ None))]
    false false "/pair" "GET" "".

Definition pairArgs : list Value := [VPtr (Some [("A", SInt 1); ("B", SInt 2)])].

(** A record with a path field, two query fields under different names
    and a header field:
    Id int64, path, id;  Q string, query, q;  Page int64, query, page,
    omitempty;  Token string, header, X-Token *)
Definition SearchMeta : MethodMeta :=
  mkMethodMeta TBytes
    [mkMethodArg true
       (Some (mkStructMeta {["Id" := mkArg "id" false]} ∅
                {["Q" := mkArg "q" false; "Page" := mkArg "page" true]}
                {["Token" := mkArg "X-Token" false]} None))]
    false false "/search/{id}" "GET" "".

Definition searchArgs : list Value :=
  [VPtr (Some [("Id", SInt 7); ("Q", SString "go"); ("Page", SInt 2);
               ("Token", SString "t")])].

(** A record with two path-role fields under different names, the first
    holding the placeholder of the second:
    A string, path, a;  B string, path, b *)
Definition ChainMeta : MethodMeta :=
  mkMethodMeta TBytes
    [mkMethodArg true
       (Some (mkStructMeta {["A" := mkArg "a" false; "B" := mkArg "b" false]} ∅ ∅ ∅ None))]
    false false "/{a}" "GET" "".

Definition chainArgs : list Value :=
  [VPtr (Some [("A", SString "{b}"); ("B", SString "x")])].

(** What synthesis and NewRequest give for IndexMeta called with a, b, c. *)
Definition abcMeta : RequestMeta :=
  mkRequestMeta "/a/c/b" "GET" (mkValues ∅) (mkValues ∅) (mkHeader ∅) None.

Definition abcRequest : Request :=
  mkRequest "GET" "http://api/a/c/b" (mkValues ∅) (mkHeader ∅) None.

(** A transport that fails on the first attempt and answers an empty body
    on the following ones. *)
Definition flakyTransport : nat -> Request -> error + Response :=
  fun n _ => if Nat.ltb n 1 then inl "connection refused" else inr (mkResponse (inr [])).

Definition flakyClient : Client BasicRetryHandler :=
  mkClient "http://api" (Some (NewBasicRetryHandler 1)) None [] flakyTransport.







(** A retry handler of the caller's own, which counts down the retries it
    still allows. *)
Record CountingRetryHandler := mkCounting { remaining : nat }.

#[global] Instance CountingRetry : RetryHandler CountingRetryHandler :=
  fun h err =>
    match remaining h with
    | O => (h, Some err)
    | S k => (mkCounting k, None)
    end.


End Examples.

(** * Properties *)

(** ** Visiting orders *)

Lemma canonicalOrder_admissible : admissible canonicalOrder.
Proof. intros i r m. reflexivity. Qed.

Lemma reverseOrder_admissible : admissible reverseOrder.
Proof. intros i r m. unfold reverseOrder. apply reverse_Permutation. Qed.

Lemma admissible_empty rho i r : admissible rho -> rho i r ∅ = [].
Proof.
  intros Hrho. apply Permutation_nil_r.
  rewrite (Hrho i r ∅). by rewrite map_to_list_empty.
Qed.

Lemma admissible_singleton rho i r k (a : Arg) :
  admissible rho -> rho i r {[k := a]} = [(k, a)].
Proof.
  intros Hrho. apply Permutation_singleton_r.
  rewrite (Hrho i r _). by rewrite map_to_list_singleton.
Qed.

(** ** Unfolding the walk *)

Lemma walkArgs_scalar canon rho meta i arg rest rm :
  methodArgs meta !! i = Some (mkMethodArg false None) ->
  walkArgs canon rho meta i (arg :: rest) rm =
  bindE (applyPathIndex arg (rmPath rm) i) (fun p =>
    walkArgs canon rho meta (S i) rest
      (mkRequestMeta p (rmMethod rm) (rmQuery rm) (rmFields rm) (rmHeaders rm) (rmBody rm))).
Proof. intros Hm. simpl. rewrite Hm. reflexivity. Qed.

Lemma walkArgs_struct canon rho meta i arg rest rm sm :
  methodArgs meta !! i = Some (mkMethodArg true (Some sm)) ->
  walkArgs canon rho meta i (arg :: rest) rm =
  bindE (applyPathFields (elementValue arg) (rmPath rm) (rho i RPath (pathFields sm))) (fun p =>
  bindE (applyAdderFields (elementValue arg) (rmQuery rm) (rho i RQuery (queryFields sm))) (fun q =>
  bindE (applyAdderFields (elementValue arg) (rmFields rm) (rho i RForm (formFields sm))) (fun f =>
  bindE (applyAdderFields (H := HeaderAdder canon) (elementValue arg) (rmHeaders rm)
           (rho i RHeader (headerFields sm))) (fun h =>
  bindE (applyBodyField (elementValue arg) sm (rmBody rm)) (fun b =>
    walkArgs canon rho meta (S i) rest (mkRequestMeta p (rmMethod rm) q f h b)))))).
Proof. intros Hm. simpl. rewrite Hm. reflexivity. Qed.

(** ** Path resolution *)

Lemma PathStub_compiles :
  compileField Examples.PathStub [TPtr Examples.TestArg] [TEmptyInterface; TError]
  = inr Examples.PathMeta.
Proof. vm_compute. reflexivity. Qed.

Lemma IndexStub_compiles :
  compileField Examples.IndexStub [TString; TString; TString] [TBytes; TError]
  = inr Examples.IndexMeta.
Proof. vm_compute. reflexivity. Qed.

(** C8. Path resolution.  The stub with template /pre/{id}/post, called
    with a structured argument whose path-role field named id holds 1234,
    is synthesized with the path /pre/1234/post; the stub with template
    /{0}/{2}/{1}, called with the scalar arguments a, b, c, is synthesized
    with the path /a/c/b: each {index} is replaced by the argument at that
    position.  This holds whatever the visiting order of the role maps. *)
Theorem path_resolution_examples canon enc rho :
  admissible rho ->
  (compileField Examples.PathStub [TPtr Examples.TestArg] [TEmptyInterface; TError]
     = inr Examples.PathMeta /\
   exists rm,
     buildRequestMeta canon enc rho Examples.PathMeta [VPtr (Some [("Id", SInt 1234)])]
       = Ok (inr rm) /\
     rmPath rm = "/pre/1234/post") /\
  (compileField Examples.IndexStub [TString; TString; TString] [TBytes; TError]
     = inr Examples.IndexMeta /\
   exists rm,
     buildRequestMeta canon enc rho Examples.IndexMeta
       [VScalar (SString "a"); VScalar (SString "b"); VScalar (SString "c")]
       = Ok (inr rm) /\
     rmPath rm = "/a/c/b").
Proof.
  intros Hrho. split; split.
  - apply PathStub_compiles.
  - unfold buildRequestMeta.
    erewrite walkArgs_struct by reflexivity.
    cbn [pathFields queryFields formFields headerFields].
    rewrite (admissible_singleton rho 0 RPath "Id" (mkArg "id" false) Hrho).
    rewrite !(admissible_empty rho 0 _ Hrho).
    eexists. split; reflexivity.
  - apply IndexStub_compiles.
  - unfold buildRequestMeta.
    eexists. split; reflexivity.
Qed.

Lemma path_resolution_examples_witness :
  admissible canonicalOrder /\
  exists rm,
    buildRequestMeta Examples.plainKey Examples.plainEncode canonicalOrder Examples.PathMeta
      [VPtr (Some [("Id", SInt 1234)])] = Ok (inr rm) /\
    rmPath rm = "/pre/1234/post".
Proof.
  split; [apply canonicalOrder_admissible |].
  exact (proj2 (proj1 (path_resolution_examples Examples.plainKey Examples.plainEncode canonicalOrder
                         canonicalOrder_admissible))).
Defined.

(** ** Omit-empty *)

Lemma UserStub_compiles :
  compileField Examples.UserStub [TPtr Examples.UserId] [TBytes; TError]
  = inr Examples.UserMeta.
Proof. vm_compute. reflexivity. Qed.

Lemma UserQueryStub_compiles :
  compileField Examples.UserQueryStub [TPtr Examples.UserQuery] [TBytes; TError]
  = inr Examples.UserQueryMeta.
Proof. vm_compute. reflexivity. Qed.

(** On a struct value [applyPathFields] substitutes every path-role field,
    whatever its OmitEmpty flag: the guard tests the struct, which
    [isEmptyValue] never finds empty. *)
Lemma applyPathFields_ignores_OmitEmpty fs p fn n rest :
  applyPathFields (VStruct fs) p ((fn, n) :: rest) =
  bindE (extractFieldValue (VStruct fs) fn) (fun s =>
    applyPathFields (VStruct fs) (stringsReplace p ("{" ++ Name n ++ "}") s) rest).
Proof. simpl. rewrite andb_false_r. reflexivity. Qed.

(** The sibling loop [applyAdderFields] tests the field: with OmitEmpty an
    empty field adds nothing, a non-empty field adds its pair. *)
Lemma applyAdderFields_omits_empty {A} `{FieldAdder A} fs (adder : A) fn n rest :
  OmitEmpty n = true ->
  isEmptyValue (lookupField fs fn) = true ->
  applyAdderFields (VStruct fs) adder ((fn, n) :: rest) =
  applyAdderFields (VStruct fs) adder rest.
Proof. intros Ho He. simpl. unfold adderSkips. simpl. rewrite Ho, He. reflexivity. Qed.

Lemma applyAdderFields_keeps_nonempty {A} `{FieldAdder A} fs (adder : A) fn n rest x :
  lookupField fs fn = VScalar x ->
  isEmptyValue (VScalar x) = false ->
  applyAdderFields (VStruct fs) adder ((fn, n) :: rest) =
  applyAdderFields (VStruct fs) (Add adder (Name n) (SprintScalar x)) rest.
Proof.
  intros Hl He. simpl. unfold adderSkips, extractFieldValue. simpl.
  rewrite Hl, He. destruct (OmitEmpty n); reflexivity.
Qed.

(** C4 (the code departs from the claim).  A path-role field tagged
    omitempty whose value is zero is not excluded: for the stub with
    template /user/{id} and the argument whose Id is 0 the placeholder is
    replaced and the synthesized path is /user/0.  The same field in the
    query role is left out when it is 0 and sent as id=15 when it is 15. *)
Theorem omitempty_zero_path_field_substituted canon enc rho :
  admissible rho ->
  compileField Examples.UserStub [TPtr Examples.UserId] [TBytes; TError]
    = inr Examples.UserMeta /\
  (exists rm,
     buildRequestMeta canon enc rho Examples.UserMeta [VPtr (Some [("Id", SInt 0)])]
       = Ok (inr rm) /\
     rmPath rm = "/user/0") /\
  (exists rm,
     buildRequestMeta canon enc rho Examples.UserQueryMeta [VPtr (Some [("Id", SInt 0)])]
       = Ok (inr rm) /\
     valuesMap (rmQuery rm) = ∅) /\
  (exists rm,
     buildRequestMeta canon enc rho Examples.UserQueryMeta [VPtr (Some [("Id", SInt 15)])]
       = Ok (inr rm) /\
     valuesMap (rmQuery rm) = {["id" := ["15"]]}).
Proof.
  intros Hrho. split; [apply UserStub_compiles |].
  repeat split.
  - unfold buildRequestMeta. erewrite walkArgs_struct by reflexivity.
    cbn [pathFields queryFields formFields headerFields].
    rewrite (admissible_singleton rho 0 RPath "Id" (mkArg "id" true) Hrho).
    rewrite !(admissible_empty rho 0 _ Hrho).
    eexists. split; reflexivity.
  - unfold buildRequestMeta. erewrite walkArgs_struct by reflexivity.
    cbn [pathFields queryFields formFields headerFields].
    rewrite (admissible_singleton rho 0 RQuery "Id" (mkArg "id" true) Hrho).
    rewrite !(admissible_empty rho 0 _ Hrho).
    eexists. split; reflexivity.
  - unfold buildRequestMeta. erewrite walkArgs_struct by reflexivity.
    cbn [pathFields queryFields formFields headerFields].
    rewrite (admissible_singleton rho 0 RQuery "Id" (mkArg "id" true) Hrho).
    rewrite !(admissible_empty rho 0 _ Hrho).
    eexists. split; [reflexivity |]. vm_compute. reflexivity.
Qed.

Lemma omitempty_zero_path_field_substituted_witness :
  admissible canonicalOrder /\
  exists rm,
    buildRequestMeta Examples.plainKey Examples.plainEncode canonicalOrder Examples.UserMeta
      [VPtr (Some [("Id", SInt 0)])] = Ok (inr rm) /\
    rmPath rm = "/user/0".
Proof.
  split; [apply canonicalOrder_admissible |].
  exact (proj1 (proj2 (omitempty_zero_path_field_substituted Examples.plainKey Examples.plainEncode
                         canonicalOrder canonicalOrder_admissible))).
Defined.

(** ** Retry *)

Lemma BasicRetry_clears (n : Z) (e : error) :
  (0 < n)%Z -> Retry (NewBasicRetryHandler n) e = (NewBasicRetryHandler n, None).
Proof.
  intros Hn. unfold Retry, BasicRetry, NewBasicRetryHandler. simpl.
  destruct (Z.ltb_spec 0 n); [reflexivity | lia].
Qed.



(** With the BasicRetryHandler and a positive maxRetries the loop never
    leaves: [retryCount] stays 0, every failure is cleared. *)
Lemma sendLoop_BasicRetry_spins (c : Client BasicRetryHandler) meta req n :
  (0 < n)%Z ->
  (forall k r, exists e, httpClient c k r = inl e) ->
  forall fuel trace,
    sendLoop c meta req fuel trace (Some (NewBasicRetryHandler n)) =
    mkCallResult (trace ++ repeat req fuel) None (Some (NewBasicRetryHandler n)).
Proof.
  intros Hn Hfail. induction fuel as [| fuel IH]; intros trace.
  - simpl. by rewrite app_nil_r.
  - simpl. destruct (Hfail (length trace) req) as [e ->].
    rewrite (BasicRetry_clears n e Hn). rewrite IH.
    f_equal. rewrite <- app_assoc. reflexivity.
Qed.

(** C1 (the code departs from the claim).  With a BasicRetryHandler built
    with maxRetries = n, n at least 1, and a transport that fails on every
    attempt, the call does not stop after n + 1 attempts: after any number
    [fuel] of iterations of the send loop the same request has been handed
    to the transport [fuel] times and the call has not returned. *)
Theorem basic_retry_handler_never_surfaces canon enc newReq
  (c : Client BasicRetryHandler) meta rho args rm req (n : Z) (fuel : nat) :
  (1 <= n)%Z ->
  retryHandler c = Some (NewBasicRetryHandler n) ->
  (forall k r, exists e, httpClient c k r = inl e) ->
  buildRequestMeta canon enc rho meta args = Ok (inr rm) ->
  newReq (rmMethod rm) (baseUrl c ++ rmPath rm) (rmBody rm) = inr req ->
  exists req',
    sent (makeRequestFunc canon enc newReq c meta rho fuel args) = repeat req' fuel /\
    outcome (makeRequestFunc canon enc newReq c meta rho fuel args) = None.
Proof.
  intros Hn Hh Hfail Hb Hr. unfold makeRequestFunc. rewrite Hb, Hr, Hh.
  rewrite sendLoop_BasicRetry_spins by (lia || assumption).
  eexists. split; reflexivity.
Qed.

Lemma basic_retry_handler_never_surfaces_witness :
  exists req',
    sent (makeRequestFunc Examples.plainKey Examples.plainEncode Examples.newRequestOk
            (Examples.retryClient 1) Examples.IndexMeta canonicalOrder 5 Examples.abcArgs)
      = repeat req' 5 /\
    outcome (makeRequestFunc Examples.plainKey Examples.plainEncode Examples.newRequestOk
               (Examples.retryClient 1) Examples.IndexMeta canonicalOrder 5 Examples.abcArgs)
      = None.
Proof.
  eapply (basic_retry_handler_never_surfaces Examples.plainKey Examples.plainEncode
            Examples.newRequestOk (Examples.retryClient 1) Examples.IndexMeta
            canonicalOrder Examples.abcArgs _ _ 1%Z 5).
  - lia.
  - reflexivity.
  - intros k r. eexists. reflexivity.
  - reflexivity.
  - reflexivity.
Defined.


(** ** Results of a call *)

(** [handleResponse] sets the failure only together with the zero payload. *)
Lemma handleResponse_failure_zero {H} (c : Client H) meta resp err e :
  snd (handleResponse c meta resp err) = Some e ->
  fst (handleResponse c meta resp err) = PZero (returnType meta).
Proof.
  unfold handleResponse. destruct err as [e0 |]; [reflexivity |].
  destruct resp as [r |]; [| discriminate].
  destruct (respBody r) as [e1 | body]; [reflexivity |].
  destruct (unmarshaler c) as [u |]; [| discriminate].
  destruct (u body (returnType meta)); [reflexivity | discriminate].
Qed.

Lemma returnRvals_failure_zero meta rvals p e :
  (forall e', snd rvals = Some e' -> fst rvals = PZero (returnType meta)) ->
  returnRvals meta rvals = Returned p (Some e) ->
  p = PZero (returnType meta).
Proof.
  intros Hz. unfold returnRvals. destruct rvals as [p0 f0]. simpl in *.
  destruct p0; try (intros [= <- ->]; by eapply Hz).
  destruct (bytesAssignable (returnType meta)); [| discriminate].
  intros [= <- ->]. by eapply Hz.
Qed.

Lemma sendLoop_failure_zero {H} `{RetryHandler H} (c : Client H) meta req fuel :
  forall trace h p e,
    outcome (sendLoop c meta req fuel trace h) = Some (Returned p (Some e)) ->
    p = PZero (returnType meta).
Proof.
  induction fuel as [| fuel IH]; intros trace h p e; simpl; [discriminate |].
  destruct (httpClient c (length trace) req) as [err | resp].
  - destruct h as [hs |].
    + destruct (Retry hs err) as [hs' [err' |]].
      * simpl. intros [= <- _]. reflexivity.
      * apply IH.
    + simpl. intros [= <- _]. reflexivity.
  - cbn [outcome]. intros [= Hr]. eapply returnRvals_failure_zero; [| exact Hr].
    intros e'. apply (handleResponse_failure_zero c meta (Some resp) None).
Qed.

(** X24.  Whenever a standard call returns with the failure set, the
    payload is the zero value of the declared payload type. *)
Lemma makeRequestFunc_failure_zero {H} `{RetryHandler H} canon enc newReq
  (c : Client H) meta rho fuel args p e :
  outcome (makeRequestFunc canon enc newReq c meta rho fuel args)
    = Some (Returned p (Some e)) ->
  p = PZero (returnType meta).
Proof.
  unfold makeRequestFunc.
  destruct (buildRequestMeta canon enc rho meta args) as [[err | rm] | msg].
  - simpl. intros [= <- _]. reflexivity.
  - destruct (newReq _ _ _) as [err | req]; [discriminate |].
    apply sendLoop_failure_zero.
  - discriminate.
Qed.

(** An error of request synthesis is returned through the failure slot,
    and nothing is sent. *)
Lemma makeRequestFunc_synthesis_error {H} `{RetryHandler H} canon enc newReq
  (c : Client H) meta rho fuel args e :
  buildRequestMeta canon enc rho meta args = Ok (inl e) ->
  makeRequestFunc canon enc newReq c meta rho fuel args =
  mkCallResult [] (Some (Returned (PZero (returnType meta)) (Some e))) (retryHandler c).
Proof. intros Hb. unfold makeRequestFunc. rewrite Hb. reflexivity. Qed.

(** C3 (the code departs from the claim).  When http.NewRequest fails, the
    failure is not returned through the failure slot: the result of
    handleResponse is dropped, the nil request is dereferenced and the call
    panics, before any request is sent. *)
Theorem new_request_failure_panics {H} `{RetryHandler H} canon enc newReq
  (c : Client H) meta rho fuel args rm e :
  buildRequestMeta canon enc rho meta args = Ok (inr rm) ->
  newReq (rmMethod rm) (baseUrl c ++ rmPath rm) (rmBody rm) = inl e ->
  sent (makeRequestFunc canon enc newReq c meta rho fuel args) = [] /\
  (exists msg,
     outcome (makeRequestFunc canon enc newReq c meta rho fuel args)
       = Some (Panicked msg)) /\
  (forall p f,
     outcome (makeRequestFunc canon enc newReq c meta rho fuel args)
       <> Some (Returned p f)).
Proof.
  intros Hb Hr. unfold makeRequestFunc. rewrite Hb, Hr. simpl.
  split; [reflexivity |]. split; [eexists; reflexivity | discriminate].
Qed.

Lemma new_request_failure_panics_witness :
  exists msg,
    outcome (makeRequestFunc Examples.plainKey Examples.plainEncode Examples.newRequestStrict
               Examples.plainClient Examples.IndexMeta canonicalOrder 1
               [VScalar (SString "%zz"); VScalar (SString "b"); VScalar (SString "c")])
      = Some (Panicked msg).
Proof.
  refine (proj1 (proj2 (new_request_failure_panics
            Examples.plainKey Examples.plainEncode Examples.newRequestStrict
            Examples.plainClient Examples.IndexMeta canonicalOrder 1
            [VScalar (SString "%zz"); VScalar (SString "b"); VScalar (SString "c")]
            (mkRequestMeta "/%zz/c/b" "GET" (mkValues ∅) (mkValues ∅) (mkHeader ∅) None)
            "invalid URL escape" _ _))).
  - reflexivity.
  - reflexivity.
Defined.

(** ** Streaming *)

(** C9.  In a streaming call an error of request synthesis is dropped:
    whenever synthesis fails, the body/form-field conflict included, the
    streaming dispatcher does not return the failure; it reads the absent
    request specification and panics, so the call gives no two-valued
    result. *)
Theorem websocket_drops_synthesis_error {H} canon enc newCfg dial
  (c : Client H) meta rho args e :
  buildRequestMeta canon enc rho meta args = Ok (inl e) ->
  (exists msg, makeWebSocketFunc canon enc newCfg dial c meta rho args = Panicked msg) /\
  (forall p f, makeWebSocketFunc canon enc newCfg dial c meta rho args <> Returned p f).
Proof.
  intros Hb. unfold makeWebSocketFunc. rewrite Hb.
  split; [eexists; reflexivity | discriminate].
Qed.

Lemma websocket_drops_synthesis_error_witness :
  buildRequestMeta Examples.plainKey Examples.plainEncode canonicalOrder
    Examples.ConflictSocketMeta Examples.conflictArgs = Ok (inl ErrBodyFieldsIncompatible) /\
  exists msg,
    makeWebSocketFunc Examples.plainKey Examples.plainEncode Examples.newConfigOk
      Examples.dialOk Examples.plainClient Examples.ConflictSocketMeta canonicalOrder
      Examples.conflictArgs = Panicked msg.
Proof.
  split; [vm_compute; reflexivity |].
  apply (proj1 (websocket_drops_synthesis_error Examples.plainKey Examples.plainEncode
           Examples.newConfigOk Examples.dialOk Examples.plainClient
           Examples.ConflictSocketMeta canonicalOrder Examples.conflictArgs
           ErrBodyFieldsIncompatible ltac:(vm_compute; reflexivity))).
Defined.

(** ** The check of form fields against the body *)

Lemma FormBody_extracted :
  processStructArg Examples.FormBodyFields = inr Examples.FormBodyMeta.
Proof. vm_compute. reflexivity. Qed.

(** A body-role field that is present and not omitted gives its bytes as
    they are; a nil slice gives a nil body. *)
Lemma applyBodyField_takes_bytes argValue sm bf b body :
  bodyField sm = Some bf ->
  FieldByName argValue (Name bf) = Ok (VScalar (SBytes b)) ->
  OmitEmpty bf && isEmptyValue (VScalar (SBytes b)) = false ->
  applyBodyField argValue sm body = Ok b.
Proof.
  intros Hbf Hf Ho. unfold applyBodyField. rewrite Hbf, Hf.
  cbn [bindE IsValid]. rewrite Ho. reflexivity.
Qed.

Lemma finishRequestMeta_conflict enc rm bs :
  valuesMap (rmFields rm) <> ∅ ->
  rmBody rm = Some bs ->
  finishRequestMeta enc rm = inl ErrBodyFieldsIncompatible.
Proof.
  intros Hne Hb. unfold finishRequestMeta.
  destruct (Nat.eqb_spec (size (valuesMap (rmFields rm))) 0) as [Hs | Hs].
  - apply map_size_empty_iff in Hs. contradiction.
  - simpl. rewrite Hb. reflexivity.
Qed.

Lemma finishRequestMeta_encodes enc rm :
  valuesMap (rmFields rm) <> ∅ ->
  rmBody rm = None ->
  finishRequestMeta enc rm =
  inr (mkRequestMeta (rmPath rm) (rmMethod rm) (rmQuery rm) (rmFields rm) (rmHeaders rm)
         (Some (String.list_byte_of_string (enc (rmFields rm))))).
Proof.
  intros Hne Hb. unfold finishRequestMeta.
  destruct (Nat.eqb_spec (size (valuesMap (rmFields rm))) 0) as [Hs | Hs].
  - apply map_size_empty_iff in Hs. contradiction.
  - simpl. rewrite Hb. reflexivity.
Qed.

(** The check compares the body with nil.  On a descriptor put together by
    hand, with a form field and a body field in one argument (compileField
    refuses such a stub, so no call carries it), a body field that holds a
    nil byte slice passes the check and the encoded form fields become the
    body. *)
Lemma nil_body_with_form_fields_no_conflict :
  processStructArg Examples.FormBodyFields = inr Examples.FormBodyMeta /\
  FieldByName (VStruct [("Field", SString "x"); ("Body", SBytes None)]) "Body"
    = Ok (VScalar (SBytes None)) /\
  OmitEmpty (mkArg "Body" false) = false /\
  buildRequestMeta Examples.plainKey Examples.plainEncode canonicalOrder
    Examples.ConflictMeta Examples.nilBodyArgs
  = Ok (inr (mkRequestMeta "/submit" "POST" (mkValues ∅) (mkValues {["field" := ["x"]]})
               (mkHeader ∅)
               (Some (String.list_byte_of_string
                        (Examples.plainEncode (mkValues {["field" := ["x"]]})))))).
Proof. repeat split; vm_compute; reflexivity. Qed.

(** The check after the walk, on any descriptor and in terms of the record
    the walk leaves: with a form-field pair collected, body bytes that are
    not nil give the body/form-field conflict error and the call returns it
    without sending a request; no body bytes, and the encoded form fields
    become the body. *)
Lemma form_fields_and_body_at_call_time {H} `{RetryHandler H} canon enc newReq
  (c : Client H) rho meta args rm fuel :
  walkArgs canon rho meta 0 args (initialRequestMeta meta) = Ok rm ->
  valuesMap (rmFields rm) <> ∅ ->
  (forall bs, rmBody rm = Some bs ->
     buildRequestMeta canon enc rho meta args = Ok (inl ErrBodyFieldsIncompatible) /\
     makeRequestFunc canon enc newReq c meta rho fuel args =
     mkCallResult []
       (Some (Returned (PZero (returnType meta)) (Some ErrBodyFieldsIncompatible)))
       (retryHandler c)) /\
  (rmBody rm = None ->
     buildRequestMeta canon enc rho meta args =
     Ok (inr (mkRequestMeta (rmPath rm) (rmMethod rm) (rmQuery rm) (rmFields rm)
                (rmHeaders rm)
                (Some (String.list_byte_of_string (enc (rmFields rm))))))).
Proof.
  intros Hw Hne. split.
  - intros bs Hb.
    assert (Hbuild : buildRequestMeta canon enc rho meta args
                     = Ok (inl ErrBodyFieldsIncompatible)).
    { unfold buildRequestMeta. rewrite Hw. cbn [bindE].
      by rewrite (finishRequestMeta_conflict enc rm bs). }
    split; [exact Hbuild |]. by apply makeRequestFunc_synthesis_error.
  - intros Hb. unfold buildRequestMeta. rewrite Hw. cbn [bindE].
    by rewrite finishRequestMeta_encodes.
Qed.

Lemma form_fields_and_body_at_call_time_witness :
  buildRequestMeta Examples.plainKey Examples.plainEncode canonicalOrder
    Examples.ConflictMeta Examples.conflictArgs = Ok (inl ErrBodyFieldsIncompatible) /\
  makeRequestFunc Examples.plainKey Examples.plainEncode Examples.newRequestOk
    Examples.plainClient Examples.ConflictMeta canonicalOrder 1 Examples.conflictArgs =
  mkCallResult []
    (Some (Returned (PZero TBytes) (Some ErrBodyFieldsIncompatible))) None.
Proof.
  refine (proj1 (form_fields_and_body_at_call_time
            Examples.plainKey Examples.plainEncode Examples.newRequestOk
            Examples.plainClient canonicalOrder Examples.ConflictMeta Examples.conflictArgs
            (mkRequestMeta "/submit" "POST" (mkValues ∅) (mkValues {["field" := ["x"]]})
               (mkHeader ∅) (Some ["001"%byte]))
            1 _ _) ["001"%byte] _).
  - vm_compute. reflexivity.
  - vm_compute. discriminate.
  - reflexivity.
Defined.

(** ** Body-role fields at compile time *)

Lemma processField_body sm f :
  isBodyRole f = true ->
  match bodyField sm with
  | Some _ => processField sm f = inl ErrOneBody
  | None => exists sm', processField sm f = inr sm' /\ is_Some (bodyField sm')
  end.
Proof.
  unfold isBodyRole, processField. intros Hb.
  apply andb_prop in Hb as [Hk Hf]. apply negb_true_iff in Hk. rewrite Hk.
  apply String.eqb_eq in Hf. rewrite Hf. simpl.
  destruct (bodyField sm); [reflexivity |]. eexists. split; [reflexivity |]. by eexists.
Qed.

Lemma processField_other sm f :
  isBodyRole f = false ->
  exists sm', processField sm f = inr sm' /\ bodyField sm' = bodyField sm.
Proof.
  unfold isBodyRole, processField. intros Hb.
  destruct (isFuncKind (sfType f)); [by eexists |]. simpl in Hb. rewrite Hb.
  repeat match goal with
         | |- context [if ?b then _ else _] => destruct b; [by eexists |]
         end.
  by eexists.
Qed.

(** [processStructArg] fails exactly when the record type has more than one
    body-role field, and records a body field exactly when it has one. *)
Lemma processFields_body fields :
  forall sm,
    match processFields sm fields with
    | inl e => e = ErrOneBody /\ 2 <= bodyCount (bodyField sm) + bodyRoleFields fields
    | inr sm' => bodyCount (bodyField sm') = bodyCount (bodyField sm) + bodyRoleFields fields
    end.
Proof.
  induction fields as [| f rest IH]; intros sm; simpl.
  - lia.
  - destruct (isBodyRole f) eqn:Hb.
    + pose proof (processField_body sm f Hb) as Hp.
      destruct (bodyField sm) as [b |] eqn:Hsm.
      * rewrite Hp. simpl. split; [reflexivity | lia].
      * destruct Hp as (sm' & -> & [b' Hb']). specialize (IH sm').
        rewrite Hb' in IH. simpl in IH.
        destruct (processFields sm' rest); simpl; [destruct IH; split; [done | lia] | lia].
    + destruct (processField_other sm f Hb) as (sm' & -> & Hsame).
      specialize (IH sm'). rewrite Hsame in IH.
      destruct (processFields sm' rest); simpl; exact IH.
Qed.

Lemma processStructArg_body fields :
  match processStructArg fields with
  | inl e => e = ErrOneBody /\ 2 <= bodyRoleFields fields
  | inr sm => bodyCount (bodyField sm) = bodyRoleFields fields
  end.
Proof. apply (processFields_body fields emptyStructMeta). Qed.

(** The loop over the parameters fails exactly when more than one body-role
    field exists over all of them. *)
Lemma compileArgs_body ins :
  forall hb,
    match compileArgs ins hb with
    | inl e => e = ErrOneBody /\ 2 <= (if hb then 1 else 0) + descriptorBodyFields ins
    | inr (_, hb') =>
        (if hb' then 1 else 0) = (if hb then 1 else 0) + descriptorBodyFields ins
    end.
Proof.
  induction ins as [| t rest IH]; intros hb; simpl.
  - lia.
  - destruct (elementType t) as [| | | | | | | name fields | |];
      try (specialize (IH hb); destruct (compileArgs rest hb) as [e | [args hb']];
           simpl; exact IH).
    pose proof (processStructArg_body fields) as Hs.
    destruct (processStructArg fields) as [e | sm].
    + destruct Hs as [-> Hs]. split; [reflexivity | lia].
    + destruct (bodyField sm) as [b |]; simpl in Hs.
      * destruct hb.
        -- split; [reflexivity | lia].
        -- specialize (IH true).
           destruct (compileArgs rest true) as [e | [args hb']].
           ++ destruct IH as [-> IH]. split; [reflexivity | lia].
           ++ lia.
      * specialize (IH hb).
        destruct (compileArgs rest hb) as [e | [args hb']].
        -- destruct IH as [-> IH]. split; [reflexivity | lia].
        -- lia.
Qed.

(** Every argument the compiler marks isStruct carries its StructMeta. *)
Lemma compileArgs_structMeta ins :
  forall hb args hb',
    compileArgs ins hb = inr (args, hb') ->
    Forall (fun a => isStruct a = true -> is_Some (structMeta a)) args.
Proof.
  induction ins as [| t rest IH]; intros hb args hb'; simpl.
  - intros [= <- _]. constructor.
  - destruct (elementType t) as [| | | | | | | name fields | |];
      try (destruct (compileArgs rest hb) as [e | [args0 hb0]] eqn:Hc; [discriminate |];
           intros [= <- _]; constructor; [discriminate | by eapply IH]).
    destruct (processStructArg fields) as [e | sm]; [discriminate |].
    destruct (bodyField sm).
    + destruct hb; [discriminate |].
      destruct (compileArgs rest true) as [e | [args0 hb0]] eqn:Hc; [discriminate |].
      intros [= <- _]. constructor; [by eexists | by eapply IH].
    + destruct (compileArgs rest hb) as [e | [args0 hb0]] eqn:Hc; [discriminate |].
      intros [= <- _]. constructor; [by eexists | by eapply IH].
Qed.

(** ** Init over a prefix of the record *)

Lemma Init_app pre rest :
  Init (pre ++ rest) =
  match Init pre with
  | (pre', None) => let '(rest', r) := Init rest in ((pre' ++ rest')%list, r)
  | (pre', Some e) => ((pre' ++ rest)%list, Some e)
  end.
Proof.
  induction pre as [| [f s] pre IH]; simpl.
  - destruct (Init rest). reflexivity.
  - destruct (sfType f);
      try (rewrite IH; destruct (Init pre) as [pre' [e |]];
           [reflexivity | destruct (Init rest); reflexivity]).
    destruct (compileField f ins outs); [reflexivity |].
    rewrite IH. destruct (Init pre) as [pre' [e |]];
      [reflexivity | destruct (Init rest); reflexivity].
Qed.

Lemma Init_failing_field f slot post ins outs e :
  sfType f = TFunc ins outs ->
  compileField f ins outs = inl e ->
  Init ((f, slot) :: post) = ((f, slot) :: post, Some e).
Proof. intros Ht Hc. simpl. rewrite Ht, Hc. reflexivity. Qed.

(** C7.  A stub whose signature is well formed (two results, the second an
    error, a supported method) and whose parameters hold more than one
    body-role field is refused with the error Only one body per request is
    supported: a record type with two body-role fields is refused by
    processStructArg, the stub by the compilation of its descriptor, and
    Init, having compiled the fields before it, returns that error.  Both
    a record with two body fields and two parameters with one body field
    each are such stubs. *)
Theorem multiple_body_fields_rejected :
  (forall fields, 2 <= bodyRoleFields fields -> processStructArg fields = inl ErrOneBody) /\
  (forall f ins out0 out1,
     isErrorType out1 = true ->
     in_ (tagGet (sfTag f) TagMethod) HttpMethods = true ->
     2 <= descriptorBodyFields ins ->
     compileField f ins [out0; out1] = inl ErrOneBody /\
     (forall pre pre' slot post,
        sfType f = TFunc ins [out0; out1] ->
        Init pre = (pre', None) ->
        Init (pre ++ (f, slot) :: post) = ((pre' ++ (f, slot) :: post)%list, Some ErrOneBody))) /\
  descriptorBodyFields [TPtr Examples.TwoBodies] = 2 /\
  descriptorBodyFields [TPtr Examples.OneBody; TPtr Examples.OneBody] = 2 /\
  Init [(Examples.SameArgStub, SlotNilFunc)]
    = ([(Examples.SameArgStub, SlotNilFunc)], Some ErrOneBody) /\
  Init [(Examples.DiffArgsStub, SlotNilFunc)]
    = ([(Examples.DiffArgsStub, SlotNilFunc)], Some ErrOneBody).
Proof.
  split; [| split; [| repeat split; vm_compute; reflexivity]].
  - intros fields Hn. pose proof (processStructArg_body fields) as Hs.
    destruct (processStructArg fields) as [e | sm].
    + by destruct Hs as [-> _].
    + destruct (bodyField sm); simpl in Hs; lia.
  - intros f ins out0 out1 He Hm Hn.
    assert (Hc : compileField f ins [out0; out1] = inl ErrOneBody).
    { unfold compileField. rewrite He, Hm. simpl.
      pose proof (compileArgs_body ins false) as Hs.
      destruct (compileArgs ins false) as [e | [args hb]].
      - by destruct Hs as [-> _].
      - destruct hb; simpl in Hs; lia. }
    split; [exact Hc |].
    intros pre pre' slot post Ht Hpre. rewrite Init_app, Hpre.
    by rewrite (Init_failing_field f slot post ins [out0; out1] ErrOneBody).
Qed.

Lemma multiple_body_fields_rejected_witness :
  2 <= bodyRoleFields
         [mkStructField "Body" TBytes [("rc_feature", "body")];
          mkStructField "Body1" TBytes [("rc_feature", "body")]] /\
  processStructArg
    [mkStructField "Body" TBytes [("rc_feature", "body")];
     mkStructField "Body1" TBytes [("rc_feature", "body")]] = inl ErrOneBody /\
  compileField Examples.DiffArgsStub [TPtr Examples.OneBody; TPtr Examples.OneBody]
    [TBytes; TError] = inl ErrOneBody.
Proof.
  split; [simpl; lia |]. split.
  - apply (proj1 multiple_body_fields_rejected). simpl. lia.
  - apply (proj1 (proj2 multiple_body_fields_rejected)
             Examples.DiffArgsStub [TPtr Examples.OneBody; TPtr Examples.OneBody]
             TBytes TError).
    + reflexivity.
    + reflexivity.
    + simpl. lia.
Defined.

(** ** Fields that are not functions *)

Lemma Init_keeps_declarations service :
  map fst (fst (Init service)) = map fst service.
Proof.
  induction service as [| [f s] rest IH]; simpl; [reflexivity |].
  destruct (sfType f);
    try (destruct (Init rest) as [rest' r]; simpl in *; by rewrite IH).
  destruct (compileField f ins outs); [reflexivity |].
  destruct (Init rest) as [rest' r]. simpl in *. by rewrite IH.
Qed.

Lemma Init_non_function_field service :
  forall i f s,
    service !! i = Some (f, s) ->
    isFuncKind (sfType f) = false ->
    fst (Init service) !! i = Some (f, s).
Proof.
  induction service as [| [f0 s0] rest IH]; intros i f s Hl Hk; [done |].
  simpl. destruct (sfType f0) eqn:Ht;
    lazymatch goal with
    | |- context [compileField] => idtac
    | _ =>
        destruct (Init rest) as [rest' r] eqn:Hi; destruct i as [| i];
        [exact Hl
        | simpl in Hl |- *; exact (IH i f s Hl Hk)]
    end.
  destruct (compileField f0 ins outs); [exact Hl |].
  destruct (Init rest) as [rest' r] eqn:Hi. destruct i as [| i].
  - simpl in Hl. injection Hl as -> ->. rewrite Ht in Hk. discriminate.
  - simpl in Hl |- *. exact (IH i f s Hl Hk).
Qed.

(** The error Init returns is the one it returns on the function fields
    alone. *)
Lemma Init_error_of_function_fields service :
  snd (Init service) = snd (Init (List.filter isFunctionField service)).
Proof.
  induction service as [| [f s] rest IH]; simpl; [reflexivity |].
  unfold isFunctionField at 1. simpl.
  destruct (sfType f) eqn:Ht; simpl;
    try (destruct (Init rest) as [rest' r]; simpl in *; exact IH).
  rewrite Ht. destruct (compileField f ins outs); [reflexivity |].
  destruct (Init rest) as [rest' r].
  destruct (Init (List.filter isFunctionField rest)) as [rest'' r']. simpl in *. exact IH.
Qed.

(** C10.  Init skips every field of the service record whose type is not a
    function type: such a field is left as it was, whatever Init returns;
    it causes no error, the error returned being the one Init returns on
    the function fields alone; and on the service of TestNonFunctionField
    Init returns nil, with the stub bound and the field Id untouched. *)
Theorem init_skips_non_function_fields :
  (forall service i f s,
     service !! i = Some (f, s) ->
     isFuncKind (sfType f) = false ->
     fst (Init service) !! i = Some (f, s)) /\
  (forall service,
     snd (Init service) = snd (Init (List.filter isFunctionField service))) /\
  Init Examples.TestService =
    ([(Examples.IdField, SlotData (VScalar (SInt 0)));
      (Examples.CallStub, SlotRequestFunc Examples.CallMeta)], None).
Proof.
  split; [exact Init_non_function_field |].
  split; [exact Init_error_of_function_fields |].
  vm_compute. reflexivity.
Qed.

Lemma init_skips_non_function_fields_witness :
  fst (Init Examples.TestService) !! 0
  = Some (Examples.IdField, SlotData (VScalar (SInt 0))).
Proof.
  apply (proj1 init_skips_non_function_fields Examples.TestService 0).
  - reflexivity.
  - reflexivity.
Defined.

(** ** Init and errors *)

(** A successful Init has bound every function field and left the others. *)
Lemma Init_success service service' :
  Init service = (service', None) ->
  service' = map bindField service.
Proof.
  revert service'. induction service as [| [f s] rest IH]; intros service'; simpl.
  - by intros [= <-].
  - unfold bindField at 1. simpl.
    destruct (sfType f);
      try (destruct (Init rest) as [rest' r]; intros [= <- ->]; by rewrite (IH rest' eq_refl)).
    destruct (compileField f ins outs); [discriminate |].
    destruct (Init rest) as [rest' r]. intros [= <- ->]. by rewrite (IH rest' eq_refl).
Qed.

(** C2 (as stated, refuted).  Init on a service whose first stub is valid
    and whose second has an unsupported method returns the error and leaves
    the first stub bound to its invoker: the record is not as it was. *)
Lemma init_error_leaves_earlier_stub_bound :
  Init Examples.HalfValidService =
    ([(Examples.CallStub, SlotRequestFunc Examples.CallMeta);
      (Examples.BogusStub, SlotNilFunc)],
     Some (ErrUnsupportedMethod "BOGUS")) /\
  fst (Init Examples.HalfValidService) <> Examples.HalfValidService.
Proof. split; [vm_compute; reflexivity | vm_compute; discriminate]. Qed.

(** C2 (amended).  When Init returns an error, the error is that of the
    first function field, in declaration order, whose declaration fails
    validation; that field and every field after it are left as they were,
    and the fields before it are as a successful Init leaves them: every
    function field among them is bound to its invoker. *)
Theorem init_stops_at_first_error service service' e :
  Init service = (service', Some e) ->
  exists pre f slot post ins outs,
    service = (pre ++ (f, slot) :: post)%list /\
    sfType f = TFunc ins outs /\
    compileField f ins outs = inl e /\
    Init pre = (map bindField pre, None) /\
    service' = (map bindField pre ++ (f, slot) :: post)%list.
Proof.
  revert service'. induction service as [| [f s] rest IH]; intros service'; simpl.
  - discriminate.
  - assert (Hskip : forall rest' r x,
              Init rest = (rest', r) ->
              (x :: rest', r) = (service', Some e) ->
              bindField (f, s) = x ->
              Init [(f, s)] = ([x], None) ->
              exists pre f0 slot post ins outs,
                (f, s) :: rest = (pre ++ (f0, slot) :: post)%list /\
                sfType f0 = TFunc ins outs /\
                compileField f0 ins outs = inl e /\
                Init pre = (map bindField pre, None) /\
                service' = (map bindField pre ++ (f0, slot) :: post)%list).
    { intros rest' r x Hi [= <- ->] Hx Hone.
      destruct (IH rest' Hi) as (pre & f0 & slot & post & ins & outs & -> & Ht & Hc & Hp & ->).
      exists ((f, s) :: pre), f0, slot, post, ins, outs.
      repeat split; try done.
      - change ((f, s) :: pre) with ([(f, s)] ++ pre)%list.
        rewrite Init_app, Hone, Hp. simpl. by rewrite Hx.
      - simpl. by rewrite Hx. }
    destruct (sfType f) eqn:Ht;
      lazymatch type of Ht with
      | _ = TFunc _ _ => idtac
      | _ =>
          destruct (Init rest) as [rest' r] eqn:Hi; intros Heq;
          apply (Hskip rest' r _ eq_refl Heq);
          [unfold bindField; simpl; by rewrite Ht | simpl; by rewrite Ht]
      end.
    destruct (compileField f ins outs) as [err | meta] eqn:Hc.
    + intros [= <- ->]. exists [], f, s, rest, ins, outs. by repeat split.
    + destruct (Init rest) as [rest' r] eqn:Hi. intros Heq.
      apply (Hskip rest' r _ eq_refl Heq).
      * unfold bindField. simpl. by rewrite Ht, Hc.
      * simpl. by rewrite Ht, Hc.
Qed.

Lemma init_stops_at_first_error_witness :
  exists pre f slot post ins outs,
    Examples.HalfValidService = (pre ++ (f, slot) :: post)%list /\
    sfType f = TFunc ins outs /\
    compileField f ins outs = inl (ErrUnsupportedMethod "BOGUS") /\
    Init pre = (map bindField pre, None) /\
    [(Examples.CallStub, SlotRequestFunc Examples.CallMeta);
     (Examples.BogusStub, SlotNilFunc)]
    = (map bindField pre ++ (f, slot) :: post)%list.
Proof.
  apply (init_stops_at_first_error Examples.HalfValidService).
  vm_compute. reflexivity.
Defined.

(** ** Determinism of request synthesis *)

Lemma PairStub_compiles :
  compileField Examples.PairStub [TPtr (TStruct "Pair" Examples.PairFields)] [TBytes; TError]
  = inr Examples.PairMeta.
Proof. vm_compute. reflexivity. Qed.

(** C5 (as stated, refuted).  A record with two query-role fields under the
    external name x, holding 1 and 2: one visiting order of the role map
    gives the query values of x in one order, the reverse visiting order
    gives them in the other, so two syntheses on the same descriptor and
    arguments give different request specifications. *)
Lemma synthesis_depends_on_visiting_order :
  admissible canonicalOrder /\
  admissible reverseOrder /\
  compileField Examples.PairStub [TPtr (TStruct "Pair" Examples.PairFields)] [TBytes; TError]
    = inr Examples.PairMeta /\
  buildRequestMeta Examples.plainKey Examples.plainEncode canonicalOrder
    Examples.PairMeta Examples.pairArgs
  = Ok (inr (mkRequestMeta "/pair" "GET" (mkValues {["x" := ["1"; "2"]]}) (mkValues ∅)
               (mkHeader ∅) None)) /\
  buildRequestMeta Examples.plainKey Examples.plainEncode reverseOrder
    Examples.PairMeta Examples.pairArgs
  = Ok (inr (mkRequestMeta "/pair" "GET" (mkValues {["x" := ["2"; "1"]]}) (mkValues ∅)
               (mkHeader ∅) None)) /\
  buildRequestMeta Examples.plainKey Examples.plainEncode canonicalOrder
    Examples.PairMeta Examples.pairArgs
  <> buildRequestMeta Examples.plainKey Examples.plainEncode reverseOrder
       Examples.PairMeta Examples.pairArgs.
Proof.
  split; [apply canonicalOrder_admissible |].
  split; [apply reverseOrder_admissible |].
  split; [apply PairStub_compiles |].
  split; [vm_compute; reflexivity |].
  split; [vm_compute; reflexivity |].
  vm_compute. discriminate.
Qed.

(** Path-role fields under different names can depend on the visiting
    order too, when the value of one holds the placeholder of another. *)
Lemma path_fields_order_matters :
  (exists rm,
     buildRequestMeta Examples.plainKey Examples.plainEncode canonicalOrder
       Examples.ChainMeta Examples.chainArgs = Ok (inr rm) /\ rmPath rm = "/x") /\
  (exists rm,
     buildRequestMeta Examples.plainKey Examples.plainEncode reverseOrder
       Examples.ChainMeta Examples.chainArgs = Ok (inr rm) /\ rmPath rm = "/{b}").
Proof. split; eexists; split; vm_compute; reflexivity. Qed.

Lemma bindE_ext {A B} (m : Exec A) (f g : A -> Exec B) :
  (forall a, f a = g a) -> bindE m f = bindE m g.
Proof. intros Hfg. destruct m; simpl; [apply Hfg | reflexivity]. Qed.

Lemma appendAt_comm m k1 v1 k2 v2 :
  k1 <> k2 ->
  appendAt (appendAt m k1 v1) k2 v2 = appendAt (appendAt m k2 v2) k1 v1.
Proof.
  intros Hne. unfold appendAt.
  rewrite (lookup_insert_ne _ k1 k2) by done.
  rewrite (lookup_insert_ne _ k2 k1) by done.
  by apply insert_insert_ne.
Qed.

Lemma applyAdderFields_cons {A} `{FieldAdder A} value (adder : A) e rest :
  applyAdderFields value adder (e :: rest) =
  bindE (adderStep value e) (fun o => applyAdderFields value (addPair adder o) rest).
Proof.
  destruct e as [fn n]. unfold adderStep. simpl.
  destruct (adderSkips value fn n) as [[|] | msg]; simpl; try reflexivity.
  destruct (extractFieldValue value fn); reflexivity.
Qed.

(** The message of a panicking step is fixed by the kind of the value. *)
Lemma adderStep_panic value e m :
  adderStep value e = Panic m ->
  m = match value with
      | VStruct _ => "reflect: call of reflect.Value.Interface on zero Value"
      | _ => "reflect: call of reflect.Value.FieldByName on non-struct Value"
      end.
Proof.
  destruct e as [fn n].
  unfold adderStep, adderSkips, extractFieldValue, FieldByName, SprintInterface, bindE.
  simpl. intros Hp. repeat case_match; congruence.
Qed.

Lemma adderStep_panic_uniform value e1 e2 m1 m2 :
  adderStep value e1 = Panic m1 -> adderStep value e2 = Panic m2 -> m1 = m2.
Proof.
  intros H1 H2. apply adderStep_panic in H1, H2. congruence.
Qed.

Lemma adderStep_key value e k v :
  adderStep value e = Ok (Some (k, v)) -> k = Name (snd e).
Proof.
  unfold adderStep.
  destruct (adderSkips value (fst e) (snd e)) as [[|] | msg]; simpl; try discriminate.
  destruct (extractFieldValue value (fst e)); simpl; [| discriminate].
  by intros [= <- _].
Qed.

Section Permuted.

Context {A : Type} `{FieldAdder A}.
(** The key under which the adder files a name. *)
Variable key : string -> string.
Hypothesis Add_comm : forall (a : A) k1 v1 k2 v2,
  key k1 <> key k2 -> Add (Add a k1 v1) k2 v2 = Add (Add a k2 v2) k1 v1.

Lemma addPair_comm value e1 e2 o1 o2 (a : A) :
  key (Name (snd e1)) <> key (Name (snd e2)) ->
  adderStep value e1 = Ok o1 ->
  adderStep value e2 = Ok o2 ->
  addPair (addPair a o1) o2 = addPair (addPair a o2) o1.
Proof.
  intros Hne H1 H2. destruct o1 as [[k1 v1] |], o2 as [[k2 v2] |]; simpl; try reflexivity.
  apply adderStep_key in H1, H2. subst. by apply Add_comm.
Qed.

(** Visiting a role map with pairwise distinct keys in another order gives
    the same adder. *)
Lemma applyAdderFields_permutation value l1 l2 :
  l1 ≡ₚ l2 ->
  NoDup (map (fun e => key (Name (snd e))) l1) ->
  forall a : A, applyAdderFields value a l1 = applyAdderFields value a l2.
Proof.
  induction 1 as [| x l l' Hp IH | x y l | l l' l'' Hp1 IH1 Hp2 IH2]; intros Hnd a.
  - reflexivity.
  - rewrite !applyAdderFields_cons. apply bindE_ext. intros o.
    apply IH. simpl in Hnd. by apply NoDup_cons in Hnd as [_ Hnd].
  - rewrite !applyAdderFields_cons.
    simpl in Hnd. apply NoDup_cons in Hnd as [Hy Hnd].
    assert (Hne : key (Name (snd x)) <> key (Name (snd y))).
    { intros Heq. apply Hy. rewrite <- Heq. apply list_elem_of_here. }
    destruct (adderStep value x) as [ox | mx] eqn:Hx;
      destruct (adderStep value y) as [oy | my] eqn:Hy'; cbn [bindE].
    + rewrite !applyAdderFields_cons, Hx, Hy'. cbn [bindE].
      by rewrite (addPair_comm value x y ox oy a Hne Hx Hy').
    + rewrite !applyAdderFields_cons, Hy'. reflexivity.
    + rewrite !applyAdderFields_cons, Hx. reflexivity.
    + f_equal. by eapply adderStep_panic_uniform.
  - rewrite IH1 by done. apply IH2.
    eapply NoDup_Permutation_proper; [| exact Hnd].
    symmetry. by apply fmap_Permutation.
Qed.

Lemma applyAdderFields_oracles rho1 rho2 value i role (m : gmap string Arg) :
  admissible rho1 -> admissible rho2 ->
  NoDup (map key (externalNames m)) ->
  forall a : A,
    applyAdderFields value a (rho1 i role m) = applyAdderFields value a (rho2 i role m).
Proof.
  intros H1 H2 Hnd a. apply applyAdderFields_permutation.
  - by rewrite (H1 i role m), (H2 i role m).
  - unfold externalNames in Hnd. rewrite map_map in Hnd.
    eapply NoDup_Permutation_proper; [| exact Hnd].
    apply fmap_Permutation, H1.
Qed.

End Permuted.

Lemma ValuesAdd_comm (a : Values) k1 v1 k2 v2 :
  k1 <> k2 -> Add (Add a k1 v1) k2 v2 = Add (Add a k2 v2) k1 v1.
Proof.
  intros Hne. unfold Add, ValuesAdder. simpl. f_equal. by apply appendAt_comm.
Qed.

Lemma HeaderAdd_comm canon (a : Header) k1 v1 k2 v2 :
  canon k1 <> canon k2 ->
  Add (FieldAdder := HeaderAdder canon) (Add (FieldAdder := HeaderAdder canon) a k1 v1) k2 v2
  = Add (FieldAdder := HeaderAdder canon) (Add (FieldAdder := HeaderAdder canon) a k2 v2) k1 v1.
Proof.
  intros Hne. unfold Add, HeaderAdder. simpl. f_equal. by apply appendAt_comm.
Qed.

Lemma short_order_unique (l l1 l2 : list (string * Arg)) :
  length l <= 1 -> l1 ≡ₚ l -> l2 ≡ₚ l -> l1 = l2.
Proof.
  intros Hlen H1 H2. destruct l as [| x [| y l]]; simpl in Hlen; [| | lia].
  - apply Permutation_nil_r in H1, H2. congruence.
  - apply Permutation_singleton_r in H1, H2. congruence.
Qed.

Lemma walkArgs_oracles canon rho1 rho2 meta :
  admissible rho1 -> admissible rho2 ->
  distinctNames canon meta ->
  forall args i rm,
    walkArgs canon rho1 meta i args rm = walkArgs canon rho2 meta i args rm.
Proof.
  intros H1 H2 Hd. induction args as [| arg rest IH]; intros i rm; [reflexivity |].
  simpl. destruct (methodArgs meta !! i) as [[st osm] |] eqn:Hl; [| reflexivity].
  simpl. destruct st; simpl.
  - destruct osm as [sm |]; [| reflexivity].
    pose proof (Forall_lookup_1 _ _ _ _ Hd Hl) as Hsm. simpl in Hsm.
    destruct Hsm as (Hp & Hq & Hf & Hh).
    rewrite (short_order_unique (map_to_list (pathFields sm))
               (rho1 i RPath (pathFields sm)) (rho2 i RPath (pathFields sm)));
      [| by rewrite length_map_to_list | apply H1 | apply H2].
    apply bindE_ext. intros p.
    rewrite (applyAdderFields_oracles (fun k => k) ValuesAdd_comm rho1 rho2 _ i RQuery
               (queryFields sm) H1 H2) by (by rewrite map_id).
    apply bindE_ext. intros q.
    rewrite (applyAdderFields_oracles (fun k => k) ValuesAdd_comm rho1 rho2 _ i RForm
               (formFields sm) H1 H2) by (by rewrite map_id).
    apply bindE_ext. intros f.
    rewrite (applyAdderFields_oracles (H := HeaderAdder canon) canon (HeaderAdd_comm canon)
               rho1 rho2 _ i RHeader (headerFields sm) H1 H2) by done.
    apply bindE_ext. intros h. apply bindE_ext. intros b. apply IH.
  - apply bindE_ext. intros p. apply IH.
Qed.

(** C5 (amended).  Request synthesis gives the same request specification
    for every visiting order of the role maps, provided that each
    structured argument has at most one path-role field and, within each of
    the query, form-field and header roles, pairwise distinct external
    names (header names as the header stores them). *)
Theorem synthesis_deterministic_distinct_names canon enc rho1 rho2 meta args :
  admissible rho1 -> admissible rho2 ->
  distinctNames canon meta ->
  buildRequestMeta canon enc rho1 meta args = buildRequestMeta canon enc rho2 meta args.
Proof.
  intros H1 H2 Hd. unfold buildRequestMeta.
  by rewrite (walkArgs_oracles canon rho1 rho2 meta H1 H2 Hd).
Qed.

Lemma synthesis_deterministic_distinct_names_witness :
  admissible canonicalOrder /\
  admissible reverseOrder /\
  distinctNames Examples.plainKey Examples.SearchMeta /\
  buildRequestMeta Examples.plainKey Examples.plainEncode canonicalOrder
    Examples.SearchMeta Examples.searchArgs
  = buildRequestMeta Examples.plainKey Examples.plainEncode reverseOrder
      Examples.SearchMeta Examples.searchArgs.
Proof.
  assert (Hd : distinctNames Examples.plainKey Examples.SearchMeta).
  { apply Forall_cons. split; [| apply Forall_nil].
    cbn [structMeta]. unfold orderIndependent.
    repeat split. all: apply (bool_decide_unpack _); vm_compute; exact I. }
  split; [apply canonicalOrder_admissible |].
  split; [apply reverseOrder_admissible |].
  split; [exact Hd |].
  exact (synthesis_deterministic_distinct_names Examples.plainKey Examples.plainEncode
           canonicalOrder reverseOrder Examples.SearchMeta Examples.searchArgs
           canonicalOrder_admissible reverseOrder_admissible Hd).
Defined.

(** * Further properties of the code *)

(** ** The helper [in] and the options of a field *)

(** X1.  [in] answers true exactly when the needle is an element of the
    haystack; in particular a method is accepted by Init exactly when it is
    GET, POST, PUT or DELETE, compared as written. *)
Theorem in_iff_elem_of needle haystack :
  (in_ needle haystack = true <-> needle ∈ haystack) /\
  (in_ needle HttpMethods = true <->
   needle = "GET" \/ needle = "POST" \/ needle = "PUT" \/ needle = "DELETE").
Proof.
  assert (Hin : forall h, in_ needle h = true <-> needle ∈ h).
  { induction h as [| s rest IH]; simpl.
    - split; [discriminate | by intros ?%elem_of_nil].
    - rewrite elem_of_cons. destruct (String.eqb_spec s needle) as [-> | Hne].
      + split; [by left | done].
      + rewrite IH. split; [by right | by intros [-> | ?]]. }
  split; [apply Hin |]. rewrite Hin. unfold HttpMethods.
  rewrite !elem_of_cons, elem_of_nil. tauto.
Qed.

Lemma splitComma_plain s :
  hasComma s = false -> splitComma s = [s].
Proof.
  induction s as [| c s IH]; simpl; [done |].
  intros [Hc Hs]%orb_false_elim. rewrite Hc, (IH Hs). reflexivity.
Qed.

Lemma splitComma_app s rest :
  hasComma s = false ->
  splitComma (s ++ "," ++ rest) = s :: splitComma rest.
Proof.
  induction s as [| c s IH]; simpl; [done |].
  intros [Hc Hs]%orb_false_elim. rewrite Hc, (IH Hs). reflexivity.
Qed.

Lemma splitComma_joinComma opts :
  opts <> [] -> Forall (fun o => hasComma o = false) opts ->
  splitComma (joinComma opts) = opts.
Proof.
  induction opts as [| o rest IH]; intros Hne Hall; [done |].
  apply Forall_cons in Hall as [Ho Hrest].
  destruct rest as [| o' rest'].
  - simpl. by apply splitComma_plain.
  - change (joinComma (o :: o' :: rest')) with (o ++ "," ++ joinComma (o' :: rest')).
    rewrite splitComma_app by done. f_equal. by apply IH.
Qed.

(** X2.  The options loop sets OmitEmpty exactly when one of the
    comma-separated options is omitempty, wherever it stands in the list;
    an option is compared whole, so no other spelling sets it. *)
Theorem omitempty_recognised opts :
  opts <> [] -> Forall (fun o => hasComma o = false) opts ->
  (optionsOmitEmpty (joinComma opts) = true <-> "omitempty" ∈ opts).
Proof.
  intros Hne Hall. unfold optionsOmitEmpty. rewrite splitComma_joinComma by done.
  rewrite existsb_exists. split.
  - intros (o & Hin & Ho). apply String.eqb_eq in Ho. subst o.
    by apply list_elem_of_In.
  - intros Hin. exists "omitempty". split; [by apply list_elem_of_In | reflexivity].
Qed.

Lemma omitempty_recognised_witness :
  optionsOmitEmpty (joinComma ["x"; "omitempty"]) = true <-> "omitempty" ∈ ["x"; "omitempty"].
Proof.
  apply (omitempty_recognised ["x"; "omitempty"]).
  - discriminate.
  - repeat constructor.
Defined.

(** ** The role maps built by [processStructArg] *)

Lemma processField_roleFields sm f sm' :
  processField sm f = inr sm' ->
  forall r, roleFields r sm' =
            if hasFeature (roleFeature r) f
            then <[sfName f := fieldArg f]> (roleFields r sm)
            else roleFields r sm.
Proof.
  unfold processField, hasFeature, fieldArg.
  destruct (isFuncKind (sfType f)); simpl.
  { intros [= <-] r. reflexivity. }
  remember (tagGet (sfTag f) TagFeature) as feature eqn:Hfeat.
  destruct (String.eqb_spec feature "") as [-> | _].
  { intros [= <-] r. destruct r; reflexivity. }
  destruct (String.eqb_spec feature FeaturePath) as [-> | Hp].
  { intros [= <-] r. destruct r; reflexivity. }
  destruct (String.eqb_spec feature FeatureField) as [-> | Hf].
  { intros [= <-] r. destruct r; reflexivity. }
  destruct (String.eqb_spec feature FeatureQuery) as [-> | Hq].
  { intros [= <-] r. destruct r; reflexivity. }
  destruct (String.eqb_spec feature FeatureHeader) as [-> | Hh].
  { intros [= <-] r. destruct r; reflexivity. }
  assert (Hnone : forall r, String.eqb feature (roleFeature r) = false).
  { intros r. apply String.eqb_neq. destruct r; assumption. }
  destruct (String.eqb feature FeatureBody).
  - destruct (bodyField sm); [discriminate |].
    intros [= <-] r. rewrite Hnone. destruct r; reflexivity.
  - intros [= <-] r. rewrite Hnone. destruct r; reflexivity.
Qed.

Lemma processFields_untouched fields :
  forall sm sm' r k,
    processFields sm fields = inr sm' ->
    (forall f, f ∈ fields -> sfName f <> k) ->
    roleFields r sm' !! k = roleFields r sm !! k.
Proof.
  induction fields as [| f rest IH]; intros sm sm' r k; simpl.
  - by intros [= <-] _.
  - destruct (processField sm f) as [e | sm1] eqn:Hf; [discriminate |].
    intros Hrest Hk. rewrite (IH sm1 sm' r k Hrest).
    + rewrite (processField_roleFields sm f sm1 Hf r).
      destruct (hasFeature (roleFeature r) f); [| done].
      apply lookup_insert_ne, Hk, list_elem_of_here.
    + intros f' Hin. apply Hk. by apply list_elem_of_further.
Qed.

Lemma processFields_entry_origin fields :
  forall sm sm' r k a,
    processFields sm fields = inr sm' ->
    roleFields r sm' !! k = Some a ->
    (exists f, f ∈ fields /\ sfName f = k /\
               hasFeature (roleFeature r) f = true /\ a = fieldArg f) \/
    roleFields r sm !! k = Some a.
Proof.
  induction fields as [| f rest IH]; intros sm sm' r k a; simpl.
  - intros [= <-] Hl. by right.
  - destruct (processField sm f) as [e | sm1] eqn:Hf; [discriminate |].
    intros Hrest Hl.
    destruct (IH sm1 sm' r k a Hrest Hl) as [(f' & Hin & Hn & Hr & Ha) | Hl1].
    + left. exists f'. split; [by apply list_elem_of_further | done].
    + rewrite (processField_roleFields sm f sm1 Hf r) in Hl1.
      destruct (hasFeature (roleFeature r) f) eqn:Hr; [| by right].
      destruct (decide (sfName f = k)) as [Heq | Hne].
      * subst k. rewrite lookup_insert_eq in Hl1. injection Hl1 as <-.
        left. exists f. split; [apply list_elem_of_here | done].
      * rewrite lookup_insert_ne in Hl1 by done. by right.
Qed.

(** X3.  For a record type whose fields have pairwise distinct names, the
    role maps that processStructArg builds hold exactly the annotated
    fields: the map of a role has an entry under a name exactly when the
    record has a field of that name, not of function type, tagged with that
    role; the entry carries the rc_name override, or the field name when
    there is none, and the omitempty flag of its options. *)
Theorem processStructArg_role_maps fields sm r k a :
  NoDup (map sfName fields) ->
  processStructArg fields = inr sm ->
  (roleFields r sm !! k = Some a <->
   exists f, f ∈ fields /\ sfName f = k /\
             hasFeature (roleFeature r) f = true /\ a = fieldArg f).
Proof.
  unfold processStructArg. intros Hnd Hp. split.
  - intros Hl.
    destruct (processFields_entry_origin fields _ _ r k a Hp Hl) as [Hf | He]; [done |].
    destruct r; simpl in He; by rewrite lookup_empty in He.
  - intros (f & Hin & <- & Hr & ->).
    revert Hnd Hp Hin. generalize emptyStructMeta as sm0.
    induction fields as [| f0 rest IH]; intros sm0 Hnd Hp Hin; [by apply elem_of_nil in Hin |].
    simpl in Hp, Hnd. apply NoDup_cons in Hnd as [Hfresh Hnd].
    destruct (processField sm0 f0) as [e | sm1] eqn:Hf; [discriminate |].
    apply elem_of_cons in Hin as [-> | Hin].
    + rewrite (processFields_untouched rest sm1 sm r (sfName f0) Hp).
      * rewrite (processField_roleFields sm0 f0 sm1 Hf r), Hr. apply lookup_insert_eq.
      * intros f' Hin' Heq. apply Hfresh. rewrite <- Heq.
        apply list_elem_of_fmap. by exists f'.
    + by apply (IH sm1).
Qed.

Lemma processStructArg_role_maps_witness :
  pathFields Examples.FormBodyMeta !! "Field" = None /\
  (formFields Examples.FormBodyMeta !! "Field" = Some (mkArg "field" false) <->
   exists f, f ∈ Examples.FormBodyFields /\ sfName f = "Field" /\
             hasFeature FeatureField f = true /\ mkArg "field" false = fieldArg f).
Proof.
  split; [reflexivity |].
  apply (processStructArg_role_maps Examples.FormBodyFields Examples.FormBodyMeta RForm).
  - apply (bool_decide_unpack _). vm_compute. exact I.
  - vm_compute. reflexivity.
Defined.

Lemma processField_bodyField sm f sm' :
  processField sm f = inr sm' ->
  bodyField sm' = if isBodyRole f then Some (fieldArg f) else bodyField sm.
Proof.
  unfold processField, isBodyRole, fieldArg.
  destruct (isFuncKind (sfType f)); simpl.
  { by intros [= <-]. }
  remember (tagGet (sfTag f) TagFeature) as feature eqn:Hfeat.
  destruct (String.eqb_spec feature "") as [-> | _].
  { by intros [= <-]. }
  destruct (String.eqb_spec feature FeaturePath) as [-> | Hp].
  { by intros [= <-]. }
  destruct (String.eqb_spec feature FeatureField) as [-> | Hf].
  { by intros [= <-]. }
  destruct (String.eqb_spec feature FeatureQuery) as [-> | Hq].
  { by intros [= <-]. }
  destruct (String.eqb_spec feature FeatureHeader) as [-> | Hh].
  { by intros [= <-]. }
  destruct (String.eqb feature FeatureBody).
  - destruct (bodyField sm); [discriminate |]. by intros [= <-].
  - by intros [= <-].
Qed.

Lemma processFields_body_origin fields :
  forall sm sm' a,
    processFields sm fields = inr sm' ->
    bodyField sm' = Some a ->
    (exists f, f ∈ fields /\ isBodyRole f = true /\ a = fieldArg f) \/
    bodyField sm = Some a.
Proof.
  induction fields as [| f rest IH]; intros sm sm' a; simpl.
  - intros [= <-] Hb. by right.
  - destruct (processField sm f) as [e | sm1] eqn:Hf; [discriminate |].
    intros Hrest Hb.
    destruct (IH sm1 sm' a Hrest Hb) as [(f' & Hin & Hr & Ha) | Hb1].
    + left. exists f'. split; [by apply list_elem_of_further | done].
    + rewrite (processField_bodyField sm f sm1 Hf) in Hb1.
      destruct (isBodyRole f) eqn:Hr; [| by right].
      injection Hb1 as <-. left. exists f. split; [apply list_elem_of_here | done].
Qed.

(** X4.  processStructArg succeeds exactly when the record type has at most
    one body-role field: no annotation, name, option or field type makes it
    fail otherwise.  On success the body field is absent exactly when the
    record has no body-role field, and when present it is the Arg of a
    body-role field of the record. *)
Theorem processStructArg_succeeds_iff fields :
  ((exists sm, processStructArg fields = inr sm) <-> bodyRoleFields fields <= 1) /\
  (forall sm, processStructArg fields = inr sm ->
     (bodyField sm = None <-> bodyRoleFields fields = 0) /\
     (forall a, bodyField sm = Some a ->
        exists f, f ∈ fields /\ isBodyRole f = true /\ a = fieldArg f)).
Proof.
  pose proof (processStructArg_body fields) as Hs. split; [split |].
  - intros [sm Hsm]. rewrite Hsm in Hs. destruct (bodyField sm); simpl in Hs; lia.
  - intros Hle. destruct (processStructArg fields) as [e | sm]; [| by eexists].
    destruct Hs as [_ Hs]. lia.
  - intros sm Hsm. rewrite Hsm in Hs. split.
    + destruct (bodyField sm); simpl in Hs; split; (done || lia).
    + intros a Ha.
      destruct (processFields_body_origin fields _ _ a Hsm Ha) as [Hf | Hn]; [done |].
      discriminate.
Qed.

Lemma processField_ignored sm f :
  isIgnored f = true -> processField sm f = inr sm.
Proof.
  unfold isIgnored, processField.
  destruct (isFuncKind (sfType f)); cbn [orb]; [done |].
  intros Hin%negb_true_iff. cbn [in_] in Hin.
  repeat match type of Hin with
         | (if ?b then true else _) = false =>
             destruct b eqn:?; [discriminate |]
         end.
  repeat match goal with
         | Hx : String.eqb ?c _ = false |- _ =>
             rewrite String.eqb_sym in Hx; rewrite Hx; clear Hx
         end.
  by destruct (String.eqb _ "").
Qed.

(** X5.  Fields of function type, fields without a feature tag and fields
    tagged with an unknown feature take no part in role extraction:
    removing them from the record leaves the result of processStructArg,
    error included, as it is. *)
Theorem processStructArg_ignores_fields fields :
  processStructArg (List.filter (fun f => negb (isIgnored f)) fields)
  = processStructArg fields.
Proof.
  unfold processStructArg. generalize emptyStructMeta as sm.
  induction fields as [| f rest IH]; intros sm; simpl; [reflexivity |].
  destruct (isIgnored f) eqn:Hi; simpl.
  - rewrite (processField_ignored sm f Hi). apply IH.
  - destruct (processField sm f); [reflexivity | apply IH].
Qed.

(** ** What [compileField] accepts and what it builds *)

Lemma processFields_formFields fields :
  forall sm sm',
    processFields sm fields = inr sm' ->
    (formFields sm' = ∅ <->
     formFields sm = ∅ /\ existsb (hasFeature FeatureField) fields = false).
Proof.
  induction fields as [| f rest IH]; intros sm sm'; simpl.
  - intros [= <-]. tauto.
  - destruct (processField sm f) as [e | sm1] eqn:Hf; [discriminate |].
    intros Hrest. rewrite (IH sm1 sm' Hrest).
    pose proof (processField_roleFields sm f sm1 Hf RForm) as Hform. simpl in Hform.
    rewrite Hform. destruct (hasFeature FeatureField f); simpl.
    + split; [intros [Hins _] | intros [_ [=]]]. by apply insert_non_empty in Hins.
    + tauto.
Qed.

Lemma processStructArg_formFields fields sm :
  processStructArg fields = inr sm ->
  negb (Nat.eqb (size (formFields sm)) 0) = existsb (hasFeature FeatureField) fields.
Proof.
  intros Hp. apply processFields_formFields in Hp. simpl in Hp.
  destruct (Nat.eqb_spec (size (formFields sm)) 0) as [Hs | Hs]; simpl.
  - apply map_size_empty_iff in Hs. apply Hp in Hs as [_ Hs]. by rewrite Hs.
  - destruct (existsb (hasFeature FeatureField) fields); [done |].
    exfalso. apply Hs, map_size_empty_iff, Hp. done.
Qed.

Lemma compileArgs_shape ins :
  forall hb args hb',
    compileArgs ins hb = inr (args, hb') ->
    length args = length ins /\
    existsb (fun arg =>
               isStruct arg &&
               match structMeta arg with
               | Some sm => negb (Nat.eqb (size (formFields sm)) 0)
               | None => false
               end) args = descriptorHasFields ins.
Proof.
  induction ins as [| t rest IH]; intros hb args hb'; simpl.
  - by intros [= <- _].
  - destruct (elementType t) as [| | | | | | | name fields | |];
      try (destruct (compileArgs rest hb) as [e | [args0 hb0]] eqn:Hc; [discriminate |];
           intros [= <- _]; destruct (IH hb args0 hb0 Hc) as [Hl He];
           simpl; by rewrite Hl, He).
    destruct (processStructArg fields) as [e | sm] eqn:Hp; [discriminate |].
    pose proof (processStructArg_formFields fields sm Hp) as Hform.
    destruct (bodyField sm).
    + destruct hb; [discriminate |].
      destruct (compileArgs rest true) as [e | [args0 hb0]] eqn:Hc; [discriminate |].
      intros [= <- _]. destruct (IH true args0 hb0 Hc) as [Hl He].
      simpl. by rewrite Hl, He, Hform.
    + destruct (compileArgs rest hb) as [e | [args0 hb0]] eqn:Hc; [discriminate |].
      intros [= <- _]. destruct (IH hb args0 hb0 Hc) as [Hl He].
      simpl. by rewrite Hl, He, Hform.
Qed.

(** X6.  The errors of the compilation of one stub, in the order Init tests
    them: a result count other than two; a second result that is not error;
    a method outside GET, POST, PUT, DELETE; more than one body-role field
    over the parameters; exactly one body-role field together with a
    form-field role on some structured parameter.  Each error is returned
    exactly under its condition, and an earlier condition hides the later
    ones. *)
Theorem compileField_errors f ins outs e :
  compileField f ins outs = inl e <->
  (length outs <> 2 /\ e = ErrTwoValues) \/
  (exists out0 out1, outs = [out0; out1] /\
     ((isErrorType out1 = false /\ e = ErrSecondNotError) \/
      (isErrorType out1 = true /\
       in_ (tagGet (sfTag f) TagMethod) HttpMethods = false /\
       e = ErrUnsupportedMethod (tagGet (sfTag f) TagMethod)) \/
      (isErrorType out1 = true /\
       in_ (tagGet (sfTag f) TagMethod) HttpMethods = true /\
       2 <= descriptorBodyFields ins /\ e = ErrOneBody) \/
      (isErrorType out1 = true /\
       in_ (tagGet (sfTag f) TagMethod) HttpMethods = true /\
       descriptorBodyFields ins = 1 /\ descriptorHasFields ins = true /\
       e = ErrFieldsAndBody))).
Proof.
  unfold compileField.
  destruct outs as [| out0 [| out1 [| out2 outs]]];
    try (simpl; split;
         [intros [= <-]; left; split; [lia | done]
         | intros [[_ ->] | (o0 & o1 & [=] & _)]; done]).
  destruct (isErrorType out1) eqn:Herr; cbn [negb].
  2: { split.
       - intros [= <-]. right. exists out0, out1. split; [done |]. by left.
       - intros [[Hl _] | (o0 & o1 & [= <- <-] & Hc)]; [done |].
         destruct Hc as [[_ ->] | [(Hx & _) | [(Hx & _) | (Hx & _)]]]; congruence. }
  destruct (in_ (tagGet (sfTag f) TagMethod) HttpMethods) eqn:Hm; cbn [negb].
  2: { split.
       - intros Heq.
         assert (He : e = ErrUnsupportedMethod (tagGet (sfTag f) TagMethod)) by congruence.
         right. exists out0, out1. split; [done |]. right. by left.
       - intros [[Hl _] | (o0 & o1 & [= <- <-] & Hc)]; [done |].
         destruct Hc as [[Hx _] | [(_ & _ & ->) | [(_ & Hx & _) | (_ & Hx & _)]]];
           congruence. }
  pose proof (compileArgs_body ins false) as Hbody.
  destruct (compileArgs ins false) as [e0 | [args hb]] eqn:Hc.
  - destruct Hbody as [-> Hbody]. simpl in Hbody. split.
    + intros [= <-]. right. exists out0, out1. split; [done |]. right. right. by left.
    + intros [[Hl _] | (o0 & o1 & [= <- <-] & Hcase)]; [done |].
      destruct Hcase as [[Hx _] | [(_ & Hx & _) | [(_ & _ & _ & ->) | (_ & _ & Hx & _)]]];
        (congruence || lia).
  - destruct (compileArgs_shape ins false args hb Hc) as [_ Hfields].
    unfold hasFields. cbn [hasBody methodArgs]. rewrite Hfields. simpl in Hbody.
    destruct hb; simpl.
    + destruct (descriptorHasFields ins) eqn:Hf.
      * split.
        -- intros [= <-]. right. exists out0, out1. split; [done |]. do 3 right. done.
        -- intros [[Hl _] | (o0 & o1 & [= <- <-] & Hcase)]; [done |].
           destruct Hcase as [[Hx _] | [(_ & Hx & _) | [(_ & _ & Hx & _) | (_ & _ & _ & _ & ->)]]];
             (congruence || lia).
      * split; [discriminate |].
        intros [[Hl _] | (o0 & o1 & [= <- <-] & Hcase)]; [done |].
        destruct Hcase as [[Hx _] | [(_ & Hx & _) | [(_ & _ & Hx & _) | (_ & _ & _ & Hx & _)]]];
          (congruence || lia).
    + split; [discriminate |].
      intros [[Hl _] | (o0 & o1 & [= <- <-] & Hcase)]; [done |].
      destruct Hcase as [[Hx _] | [(_ & Hx & _) | [(_ & _ & Hx & _) | (_ & _ & Hx & _)]]];
        (congruence || lia).
Qed.

Lemma compileField_inr_shape f ins outs meta :
  compileField f ins outs = inr meta ->
  exists out0 out1 args,
    outs = [out0; out1] /\ isErrorType out1 = true /\
    in_ (tagGet (sfTag f) TagMethod) HttpMethods = true /\
    compileArgs ins false = inr (args, hasBody meta) /\
    meta = mkMethodMeta out0 args (hasBody meta) (isWebSocketConnPtr out0)
             (tagGet (sfTag f) TagPath) (tagGet (sfTag f) TagMethod)
             (if isWebSocketConnPtr out0 then tagGet (sfTag f) TagOrigin else "") /\
    hasBody meta && hasFields meta = false.
Proof.
  unfold compileField.
  destruct outs as [| out0 [| out1 [| out2 outs']]]; try discriminate.
  destruct (isErrorType out1) eqn:He; [| discriminate]. cbn [negb].
  destruct (in_ (tagGet (sfTag f) TagMethod) HttpMethods) eqn:Hm; [| discriminate].
  cbn [negb].
  destruct (compileArgs ins false) as [e | [args hb]] eqn:Ha; [discriminate |].
  match goal with |- context [if ?c then _ else _] => destruct c eqn:Hc end;
    [discriminate |].
  intros [= <-]. exists out0, out1, args. cbn [hasBody]. by repeat split.
Qed.

(** X7.  A stub compiles exactly when it has two results, the second of
    type error, a supported method, at most one body-role field over its
    parameters and no form-field role beside a body-role field.  The
    descriptor then carries the first result type, the method and path of
    the tags, one argument descriptor per parameter, the streaming flag
    exactly for a first result of type pointer to websocket.Conn (with the
    origin tag only then), hasBody exactly when there is a body-role field,
    and never both a body and form fields. *)
Theorem compileField_success f ins outs :
  ((exists meta, compileField f ins outs = inr meta) <->
   exists out0 out1, outs = [out0; out1] /\ isErrorType out1 = true /\
     in_ (tagGet (sfTag f) TagMethod) HttpMethods = true /\
     descriptorBodyFields ins <= 1 /\
     (descriptorBodyFields ins = 1 -> descriptorHasFields ins = false)) /\
  (forall meta, compileField f ins outs = inr meta ->
     returnType meta = hd TError outs /\
     method meta = tagGet (sfTag f) TagMethod /\
     path meta = tagGet (sfTag f) TagPath /\
     webSocket meta = isWebSocketConnPtr (hd TError outs) /\
     origin meta = (if webSocket meta then tagGet (sfTag f) TagOrigin else "") /\
     length (methodArgs meta) = length ins /\
     (hasBody meta = true <-> descriptorBodyFields ins = 1) /\
     hasFields meta = descriptorHasFields ins /\
     hasBody meta && hasFields meta = false).
Proof.
  pose proof (compileField_inr_shape f ins outs) as Hshape.
  split; [split |].
  - intros [meta Hmeta].
    destruct (Hshape meta Hmeta) as (o0 & o1 & args & -> & He & Hm & Hargs & -> & Hinv).
    exists o0, o1. repeat split; try done.
    + pose proof (compileArgs_body ins false) as Hb. rewrite Hargs in Hb.
      simpl in Hb. destruct hasBody; simpl in Hb; lia.
    + intros Hone. pose proof (compileArgs_body ins false) as Hb. rewrite Hargs in Hb.
      destruct (compileArgs_shape ins false _ _ Hargs) as [_ Hf].
      cbn [hasBody] in *. unfold hasFields in Hinv. cbn [methodArgs] in Hinv.
      rewrite Hf in Hinv. simpl in Hb.
      destruct (hasBody _); simpl in Hb, Hinv; [done | lia].
  - intros (o0 & o1 & -> & He & Hm & Hle & Hexcl).
    unfold compileField. rewrite He, Hm. cbn [negb].
    pose proof (compileArgs_body ins false) as Hb.
    destruct (compileArgs ins false) as [e | [args hb]] eqn:Ha.
    { destruct Hb as [_ Hb]. simpl in Hb. lia. }
    destruct (compileArgs_shape ins false args hb Ha) as [_ Hf].
    unfold hasFields. cbn [hasBody methodArgs]. rewrite Hf. simpl in Hb.
    destruct hb; cbn [andb]; [| by eexists].
    rewrite Hexcl by (simpl in Hb; lia). by eexists.
  - intros meta Hmeta.
    destruct (Hshape meta Hmeta) as (o0 & o1 & args & -> & He & Hm & Hargs & Heq & Hinv).
    pose proof (compileArgs_body ins false) as Hb. rewrite Hargs in Hb. simpl in Hb.
    destruct (compileArgs_shape ins false _ _ Hargs) as [Hlen Hf].
    rewrite Heq. cbn [returnType method path webSocket origin methodArgs hasBody hd].
    repeat split; try done.
    + intros Hh. rewrite Hh in Hb. simpl in Hb. lia.
    + intros Hone. destruct (hasBody meta); [done | simpl in Hb; lia].
    + rewrite Heq in Hinv. exact Hinv.
Qed.

(** ** The call-time check on compiled descriptors *)

Lemma compileArgs_no_body ins :
  forall hb args,
    compileArgs ins hb = inr (args, false) ->
    Forall (fun a => forall sm, structMeta a = Some sm -> bodyField sm = None) args.
Proof.
  induction ins as [| t rest IH]; intros hb args; simpl.
  - intros [= <-]. constructor.
  - destruct (elementType t) as [| | | | | | | name fields | |];
      try (destruct (compileArgs rest hb) as [e | [args0 hb0]] eqn:Hc; [discriminate |];
           intros [= <- ->]; constructor; [by intros sm [=] | by eapply IH]).
    destruct (processStructArg fields) as [e | sm]; [discriminate |].
    destruct (bodyField sm) eqn:Hb.
    + destruct hb; [discriminate |].
      pose proof (compileArgs_body rest true) as Hbody.
      destruct (compileArgs rest true) as [e | [args0 hb0]] eqn:Hc; [discriminate |].
      intros [= <- ->]. simpl in Hbody. lia.
    + destruct (compileArgs rest hb) as [e | [args0 hb0]] eqn:Hc; [discriminate |].
      intros [= <- ->]. constructor; [by intros sm' [= <-] | by eapply IH].
Qed.

Lemma compileArgs_marks_structs ins :
  forall hb args hb',
    compileArgs ins hb = inr (args, hb') ->
    Forall (fun a => is_Some (structMeta a) -> isStruct a = true) args.
Proof.
  induction ins as [| t rest IH]; intros hb args hb'; simpl.
  - intros [= <- _]. constructor.
  - destruct (elementType t) as [| | | | | | | name fields | |];
      try (destruct (compileArgs rest hb) as [e | [args0 hb0]] eqn:Hc; [discriminate |];
           intros [= <- _]; constructor; [by intros [? [=]] | by eapply IH]).
    destruct (processStructArg fields) as [e | sm]; [discriminate |].
    destruct (bodyField sm).
    + destruct hb; [discriminate |].
      destruct (compileArgs rest true) as [e | [args0 hb0]] eqn:Hc; [discriminate |].
      intros [= <- _]. constructor; [done | by eapply IH].
    + destruct (compileArgs rest hb) as [e | [args0 hb0]] eqn:Hc; [discriminate |].
      intros [= <- _]. constructor; [done | by eapply IH].
Qed.

Lemma walkArgs_keeps_body canon rho meta :
  Forall (fun a => forall sm, structMeta a = Some sm -> bodyField sm = None)
         (methodArgs meta) ->
  forall args i rm rm',
    walkArgs canon rho meta i args rm = Ok rm' -> rmBody rm' = rmBody rm.
Proof.
  intros Hall. induction args as [| arg rest IH]; intros i rm rm'; simpl.
  - by intros [= <-].
  - destruct (methodArgs meta !! i) as [[st osm] |] eqn:Hl; [| discriminate].
    simpl. destruct st; simpl.
    + destruct osm as [sm |]; [| discriminate].
      pose proof (Forall_lookup_1 _ _ _ _ Hall Hl sm eq_refl) as Hnb.
      destruct (applyPathFields _ _ _) as [p |]; simpl; [| discriminate].
      destruct (applyAdderFields _ (rmQuery rm) _) as [q |]; simpl; [| discriminate].
      destruct (applyAdderFields _ (rmFields rm) _) as [fl |]; simpl; [| discriminate].
      destruct (applyAdderFields _ (rmHeaders rm) _) as [h |]; simpl; [| discriminate].
      unfold applyBodyField. rewrite Hnb. simpl.
      intros Hw. by rewrite (IH _ _ _ Hw).
    + destruct (applyPathIndex arg (rmPath rm) i) as [p |]; simpl; [| discriminate].
      intros Hw. by rewrite (IH _ _ _ Hw).
Qed.

Lemma walkArgs_keeps_fields canon rho meta :
  admissible rho ->
  Forall (fun a => forall sm, structMeta a = Some sm -> formFields sm = ∅)
         (methodArgs meta) ->
  forall args i rm rm',
    walkArgs canon rho meta i args rm = Ok rm' -> rmFields rm' = rmFields rm.
Proof.
  intros Hrho Hall. induction args as [| arg rest IH]; intros i rm rm'; simpl.
  - by intros [= <-].
  - destruct (methodArgs meta !! i) as [[st osm] |] eqn:Hl; [| discriminate].
    simpl. destruct st; simpl.
    + destruct osm as [sm |]; [| discriminate].
      pose proof (Forall_lookup_1 _ _ _ _ Hall Hl sm eq_refl) as Hnf.
      rewrite Hnf, (admissible_empty rho i RForm Hrho).
      destruct (applyPathFields _ _ _) as [p |]; simpl; [| discriminate].
      destruct (applyAdderFields _ (rmQuery rm) _) as [q |]; simpl; [| discriminate].
      destruct (applyAdderFields _ (rmHeaders rm) _) as [h |]; simpl; [| discriminate].
      destruct (applyBodyField _ _ _) as [b |]; simpl; [| discriminate].
      intros Hw. by rewrite (IH _ _ _ Hw).
    + destruct (applyPathIndex arg (rmPath rm) i) as [p |]; simpl; [| discriminate].
      intros Hw. by rewrite (IH _ _ _ Hw).
Qed.

(** X8.  On a descriptor that compileField has accepted, request synthesis
    never returns an error, whatever the arguments and the visiting order:
    the body/form-field check made at call time cannot fire on a compiled
    stub. *)
Theorem compiled_descriptor_never_conflicts canon enc rho f ins outs meta args :
  compileField f ins outs = inr meta ->
  admissible rho ->
  forall e, buildRequestMeta canon enc rho meta args <> Ok (inl e).
Proof.
  intros Hc Hrho e.
  destruct (compileField_inr_shape f ins outs meta Hc)
    as (o0 & o1 & margs & _ & _ & _ & Hargs & Hmeta & Hinv).
  assert (Hm : methodArgs meta = margs) by (rewrite Hmeta; reflexivity).
  unfold buildRequestMeta.
  destruct (walkArgs canon rho meta 0 args (initialRequestMeta meta)) as [rm |] eqn:Hw;
    simpl; [| discriminate].
  unfold finishRequestMeta.
  apply andb_false_iff in Hinv as [Hnb | Hnf].
  - rewrite Hnb in Hargs. apply compileArgs_no_body in Hargs. rewrite <- Hm in Hargs.
    rewrite (walkArgs_keeps_body canon rho meta Hargs _ _ _ _ Hw). simpl.
    destruct (negb _); discriminate.
  - assert (Hall : Forall (fun a => forall sm, structMeta a = Some sm -> formFields sm = ∅)
                     (methodArgs meta)).
    { pose proof (compileArgs_marks_structs ins false margs _ Hargs) as Hs.
      rewrite <- Hm in Hs. unfold hasFields in Hnf.
      apply Forall_forall. intros a Hin sm Hsm.
      rewrite Forall_forall in Hs. specialize (Hs a Hin ltac:(by eexists)).
      destruct (existsb_exists
                  (fun arg => isStruct arg &&
                     match structMeta arg with
                     | Some sm0 => negb (Nat.eqb (size (formFields sm0)) 0)
                     | None => false
                     end) (methodArgs meta)) as [_ Hex].
      destruct (Nat.eqb_spec (size (formFields sm)) 0) as [Hz | Hnz].
      - by apply map_size_empty_iff.
      - rewrite Hex in Hnf; [discriminate |].
        exists a. split; [by apply list_elem_of_In |].
        rewrite Hs, Hsm. simpl. by apply negb_true_iff, Nat.eqb_neq. }
    rewrite (walkArgs_keeps_fields canon rho meta Hrho Hall _ _ _ _ Hw). simpl.
    discriminate.
Qed.

Lemma compiled_descriptor_never_conflicts_witness :
  buildRequestMeta Examples.plainKey Examples.plainEncode canonicalOrder
    Examples.PathMeta [VPtr (Some [("Id", SInt 1234)])]
  <> Ok (inl ErrBodyFieldsIncompatible).
Proof.
  apply (compiled_descriptor_never_conflicts Examples.plainKey Examples.plainEncode
           canonicalOrder Examples.PathStub [TPtr Examples.TestArg]
           [TEmptyInterface; TError] Examples.PathMeta).
  - vm_compute. reflexivity.
  - intros i r m. reflexivity.
Defined.

(** ** Form fields and body on a compiled descriptor *)

Lemma appendAt_lookup m k v k' :
  default [] (appendAt m k v !! k')
  = (default [] (m !! k') ++ (if decide (k = k') then [v] else []))%list.
Proof.
  unfold appendAt. destruct (decide (k = k')) as [-> | Hne].
  - by rewrite lookup_insert_eq.
  - rewrite lookup_insert_ne by done. by rewrite app_nil_r.
Qed.









(** ** Init as a whole *)

(** X9.  Init is idempotent: running it again on the record it has left
    gives the same record and the same error.  What Init stores in a
    function field depends on the declaration only, not on what the field
    held. *)
Theorem Init_idempotent service :
  Init (fst (Init service)) = Init service.
Proof.
  induction service as [| [f s] rest IH]; [reflexivity |].
  simpl. destruct (sfType f) eqn:Ht;
    lazymatch type of Ht with
    | _ = TFunc _ _ => idtac
    | _ => destruct (Init rest) as [rest' r] eqn:Hi; simpl in *; rewrite Ht, IH; reflexivity
    end.
  destruct (compileField f ins outs) as [e | meta] eqn:Hc.
  - simpl. by rewrite Ht, Hc.
  - destruct (Init rest) as [rest' r] eqn:Hi. simpl in *. by rewrite Ht, Hc, IH.
Qed.

Lemma Init_result_iff service :
  snd (Init service) = None <-> forallb fieldCompiles service = true.
Proof.
  induction service as [| [f s] rest IH]; simpl; [done |].
  unfold fieldCompiles at 1. simpl.
  destruct (sfType f);
    try (destruct (Init rest) as [rest' r]; simpl in *; exact IH).
  destruct (compileField f ins outs); simpl; [done |].
  destruct (Init rest) as [rest' r]. simpl in *. exact IH.
Qed.

(** X10.  On a service record whose function fields are all exported
    (reflect can set no other), Init returns nil exactly when every
    function field compiles.  Then no function field is left unset: each
    holds the invoker of its own descriptor, the streaming invoker exactly
    when its first result is a pointer to websocket.Conn and the standard
    one otherwise. *)
Theorem Init_success_binds_all service :
  stubsExported service = true ->
  (snd (Init service) = None <-> forallb fieldCompiles service = true) /\
  (snd (Init service) = None ->
   forall i f slot ins outs,
     fst (Init service) !! i = Some (f, slot) ->
     sfType f = TFunc ins outs ->
     exists meta,
       compileField f ins outs = inr meta /\
       slot = if isWebSocketConnPtr (hd TError outs)
              then SlotWebSocketFunc meta else SlotRequestFunc meta).
Proof.
  intros _. split; [apply Init_result_iff |].
  intros Hnil i f slot ins outs Hl Ht.
  destruct (Init service) as [service' r] eqn:Hi. simpl in Hnil, Hl. subst r.
  pose proof (proj1 (Init_result_iff service)) as Hall.
  rewrite Hi in Hall. specialize (Hall eq_refl).
  apply Init_success in Hi. subst service'.
  rewrite list_lookup_fmap in Hl.
  destruct (service !! i) as [[f0 s0] |] eqn:Hl0; [| discriminate].
  simpl in Hl. injection Hl as Hbind.
  assert (Hin : (f0, s0) ∈ service) by (by eapply list_elem_of_lookup_2).
  rewrite forallb_forall in Hall. specialize (Hall (f0, s0)).
  rewrite <- list_elem_of_In in Hall. specialize (Hall Hin).
  unfold bindField in Hbind. unfold fieldCompiles in Hall. simpl in Hbind, Hall.
  destruct (sfType f0) eqn:Ht0;
    try (injection Hbind as <- <-; rewrite Ht0 in Ht; discriminate).
  destruct (compileField f0 ins0 outs0) as [e | meta] eqn:Hc; [discriminate |].
  injection Hbind as <- <-. rewrite Ht0 in Ht. injection Ht as <- <-.
  exists meta. split; [done |].
  destruct (compileField_inr_shape f0 ins0 outs0 meta Hc)
    as (o0 & o1 & margs & -> & _ & _ & _ & Hmeta & _).
  unfold makeInvoker. rewrite Hmeta. simpl. by destruct (isWebSocketConnPtr o0).
Qed.

Lemma Init_success_binds_all_witness :
  stubsExported Examples.TestService = true /\
  exists meta,
    compileField Examples.CallStub [] [TEmptyInterface; TError] = inr meta /\
    SlotRequestFunc Examples.CallMeta = SlotRequestFunc meta.
Proof.
  split; [reflexivity |].
  apply (proj2 (Init_success_binds_all Examples.TestService eq_refl) eq_refl 1
           Examples.CallStub (SlotRequestFunc Examples.CallMeta) [] [TEmptyInterface; TError]).
  - reflexivity.
  - reflexivity.
Defined.

(** ** Placeholders *)

Lemma string_app_nil_r (s : string) : s ++ "" = s.
Proof.
  induction s as [| c s IH]; [done |].
  change (String c (s ++ "") = String c s). by f_equal.
Qed.

Lemma string_app_assoc (a b c : string) : (a ++ b) ++ c = a ++ (b ++ c).
Proof.
  induction a as [| x a IH]; [done |].
  change (String x ((a ++ b) ++ c) = String x (a ++ (b ++ c))). by f_equal.
Qed.

Lemma prefix_app (old post : string) : String.prefix old (old ++ post) = true.
Proof.
  induction old as [| c old IH]; simpl; [by destruct post |].
  destruct (Ascii.ascii_dec c c); [exact IH | done].
Qed.

Lemma replaceFrom_skip old new (t post : string) :
  replaceFrom old new (t ++ post) (String.length t) = replaceFrom old new post 0.
Proof.
  induction t as [| c t IH]; simpl; [| exact IH].
  destruct post; reflexivity.
Qed.

Lemma replaceFrom_pre r new (pre rest : string) :
  hasBrace pre = false ->
  replaceFrom (String (Ascii.ascii_of_nat 123) r) new (pre ++ rest) 0
  = pre ++ replaceFrom (String (Ascii.ascii_of_nat 123) r) new rest 0.
Proof.
  induction pre as [| c pre IH]; [reflexivity |].
  intros [Hc Hpre]%orb_false_elim.
  change (String c pre ++ rest) with (String c (pre ++ rest)).
  cbn [replaceFrom String.prefix].
  destruct (Ascii.ascii_dec (Ascii.ascii_of_nat 123) c) as [Heq | Hne].
  - subst c. by rewrite Ascii.eqb_refl in Hc.
  - rewrite (IH Hpre). reflexivity.
Qed.

Lemma replaceFrom_match r new (post : string) :
  replaceFrom (String (Ascii.ascii_of_nat 123) r) new
    (String (Ascii.ascii_of_nat 123) r ++ post) 0
  = new ++ replaceFrom (String (Ascii.ascii_of_nat 123) r) new post 0.
Proof.
  change (String (Ascii.ascii_of_nat 123) r ++ post)
    with (String (Ascii.ascii_of_nat 123) (r ++ post)).
  cbn [replaceFrom].
  change (String (Ascii.ascii_of_nat 123) (r ++ post))
    with (String (Ascii.ascii_of_nat 123) r ++ post).
  rewrite prefix_app. cbn [String.length]. rewrite Nat.sub_1_r. cbn [Nat.pred].
  by rewrite replaceFrom_skip.
Qed.

(** X11.  Substitution of a scalar argument: in a template made of a part
    without braces, the placeholder of the argument's index, and a rest,
    the placeholder is replaced by the printed argument and the rest is
    treated in the same way; a template without any brace is returned as it
    is, so an argument without a placeholder changes nothing and is no
    error. *)
Theorem applyPathIndex_substitutes value s index pre post :
  SprintInterface value = Ok s ->
  hasBrace pre = false ->
  applyPathIndex value (pre ++ "{" ++ pretty (N.of_nat index) ++ "}" ++ post) index
    = bindE (applyPathIndex value post index) (fun post' => Ok (pre ++ s ++ post')) /\
  applyPathIndex value pre index = Ok pre.
Proof.
  intros Hs Hpre. unfold applyPathIndex. rewrite Hs. cbn [bindE].
  change ("{" ++ pretty (N.of_nat index) ++ "}")
    with (String (Ascii.ascii_of_nat 123) (pretty (N.of_nat index) ++ "}")).
  cbn [stringsReplace]. split.
  - change (String (Ascii.ascii_of_nat 123) (pretty (N.of_nat index) ++ "}" ++ post))
      with ("{" ++ pretty (N.of_nat index) ++ "}" ++ post).
    rewrite replaceFrom_pre by done.
    assert (Heq : "{" ++ pretty (N.of_nat index) ++ "}" ++ post
                  = String (Ascii.ascii_of_nat 123) (pretty (N.of_nat index) ++ "}") ++ post).
    { change (String (Ascii.ascii_of_nat 123) (pretty (N.of_nat index) ++ ("}" ++ post))
              = String (Ascii.ascii_of_nat 123)
                       ((pretty (N.of_nat index) ++ "}") ++ post)).
      by rewrite string_app_assoc. }
    rewrite Heq.
    by rewrite replaceFrom_match.
  - rewrite <- (string_app_nil_r pre) at 1. rewrite replaceFrom_pre by done.
    cbn [replaceFrom]. by rewrite string_app_nil_r.
Qed.

Lemma applyPathIndex_substitutes_witness :
  applyPathIndex (VScalar (SInt 15)) ("/user/" ++ "{" ++ pretty (N.of_nat 0) ++ "}" ++ "/posts") 0
  = bindE (applyPathIndex (VScalar (SInt 15)) "/posts" 0)
          (fun post' => Ok ("/user/" ++ "15" ++ post')).
Proof.
  apply (applyPathIndex_substitutes (VScalar (SInt 15)) "15" 0 "/user/" "/posts").
  - reflexivity.
  - reflexivity.
Defined.

(** ** Structured arguments *)

Lemma applyPathFields_invalid p order :
  applyPathFields VInvalid p order = Ok p.
Proof. induction order as [| [fn n] rest IH]; simpl; [done | exact IH]. Qed.

Lemma applyAdderFields_invalid {A} `{FieldAdder A} (adder : A) order :
  applyAdderFields VInvalid adder order = Ok adder.
Proof. induction order as [| [fn n] rest IH]; simpl; [done | exact IH]. Qed.

(** X12.  A nil pointer passed for a structured parameter: no field is
    read, so the path, the query, the form fields and the headers stay as
    they are and the walk goes on with the next argument, provided the
    record has no body-role field; if it has one, the body step reads the
    field of the absent struct and the call panics. *)
Theorem nil_struct_argument canon rho meta i rest rm sm :
  methodArgs meta !! i = Some (mkMethodArg true (Some sm)) ->
  (bodyField sm = None ->
   walkArgs canon rho meta i (VPtr None :: rest) rm = walkArgs canon rho meta (S i) rest rm) /\
  (is_Some (bodyField sm) ->
   exists msg, walkArgs canon rho meta i (VPtr None :: rest) rm = Panic msg).
Proof.
  intros Hl. rewrite (walkArgs_struct canon rho meta i (VPtr None) rest rm sm Hl).
  cbn [elementValue]. rewrite applyPathFields_invalid.
  rewrite !applyAdderFields_invalid. cbn [bindE]. unfold applyBodyField. split.
  - intros ->. cbn [bindE]. by destruct rm.
  - intros [bf ->]. simpl. by eexists.
Qed.

Lemma nil_struct_argument_witness :
  walkArgs Examples.plainKey canonicalOrder Examples.PathMeta 0 [VPtr None]
    (initialRequestMeta Examples.PathMeta)
  = walkArgs Examples.plainKey canonicalOrder Examples.PathMeta 1 []
      (initialRequestMeta Examples.PathMeta).
Proof.
  apply (proj1 (nil_struct_argument Examples.plainKey canonicalOrder Examples.PathMeta 0 []
                  (initialRequestMeta Examples.PathMeta)
                  (mkStructMeta {["Id" := mkArg "id" false]} ∅ ∅ ∅ None) eq_refl)).
  reflexivity.
Defined.

Lemma lookupField_shape fs name :
  lookupField fs name = VInvalid \/ exists x, lookupField fs name = VScalar x.
Proof.
  induction fs as [| [n x] rest IH]; simpl; [by left |].
  destruct (String.eqb n name); [right; by eexists | exact IH].
Qed.

(** X13.  Query and form-field pairs accumulate: after the loop
    over a role map, the values filed under a key are the values that were
    there before followed by the printed values of the fields named by that
    key, in visiting order, except the fields left out by the omit rule.
    Two fields under one external name both keep their value; keys that no
    field names are untouched. *)
Theorem applyAdderFields_accumulates fs order k :
  forall (adder adder' : Values),
    applyAdderFields (VStruct fs) adder order = Ok adder' ->
    default [] (valuesMap adder' !! k)
    = (default [] (valuesMap adder !! k) ++ keyValues fs order k)%list.
Proof.
  induction order as [| [fn n] rest IH]; intros adder adder'.
  - simpl. intros [= <-]. by rewrite app_nil_r.
  - cbn [applyAdderFields keyValues]. unfold adderSkips, extractFieldValue.
    cbn [IsValid negb FieldByName bindE].
    destruct (lookupField_shape fs fn) as [Hf | [x Hf]]; rewrite Hf.
    + destruct (OmitEmpty n); simpl; discriminate.
    + assert (Hskip : (if OmitEmpty n then Ok (isEmptyValue (VScalar x)) else Ok false)
                      = Ok (OmitEmpty n && isEmptyValue (VScalar x))).
      { by destruct (OmitEmpty n). }
      rewrite Hskip. cbn [bindE SprintInterface].
      destruct (OmitEmpty n && isEmptyValue (VScalar x)); [apply IH |].
      intros Hrest. rewrite (IH _ _ Hrest).
      unfold Add, ValuesAdder. cbn [valuesMap]. rewrite appendAt_lookup.
      destruct (String.eqb_spec (Name n) k) as [Heq | Hne].
      * rewrite decide_True by done. by rewrite <- app_assoc.
      * rewrite decide_False by done. by rewrite app_nil_r.
Qed.

Lemma applyAdderFields_accumulates_witness :
  default [] (valuesMap (mkValues {["x" := ["1"; "2"]]}) !! "x")
  = (default [] (valuesMap (mkValues ∅) !! "x")
     ++ keyValues [("A", SInt 1); ("B", SInt 2)]
          [("A", mkArg "x" false); ("B", mkArg "x" false)] "x")%list.
Proof.
  apply (applyAdderFields_accumulates [("A", SInt 1); ("B", SInt 2)]
           [("A", mkArg "x" false); ("B", mkArg "x" false)] "x" (mkValues ∅)).
  vm_compute. reflexivity.
Defined.

(** ** Merging query parameters and headers *)

Lemma addAll_key_fold (k0 : string) (ql : list string) (k : string) :
  forall v : Values,
    default [] (valuesMap (fold_left (fun a q => Add a k0 q) ql v) !! k)
    = (default [] (valuesMap v !! k) ++ (if decide (k0 = k) then ql else []))%list.
Proof.
  induction ql as [| q ql IH]; intros v; simpl.
  - destruct (decide (k0 = k)); by rewrite app_nil_r.
  - rewrite IH. unfold Add, ValuesAdder. cbn [valuesMap]. rewrite appendAt_lookup.
    destruct (decide (k0 = k)); rewrite <- app_assoc; reflexivity.
Qed.

Lemma addAll_entries_fold (l : list (string * list string)) (k : string) :
  NoDup (map fst l) ->
  forall v : Values,
    default [] (valuesMap
                  (fold_left (fun a e => fold_left (fun a' q => Add a' (fst e) q) (snd e) a)
                             l v) !! k)
    = (default [] (valuesMap v !! k)
       ++ default [] ((list_to_map l : gmap string (list string)) !! k))%list.
Proof.
  induction l as [| [k0 ql] l IH]; intros Hnd v.
  - simpl. by rewrite lookup_empty, app_nil_r.
  - simpl in Hnd. apply NoDup_cons in Hnd as [Hfresh Hnd].
    cbn [fold_left fst snd]. rewrite (IH Hnd), addAll_key_fold, list_to_map_cons.
    destruct (decide (k0 = k)) as [-> | Hne].
    + rewrite lookup_insert_eq. cbn [default].
      rewrite (not_elem_of_list_to_map_1 l k Hfresh). by rewrite app_nil_r.
    + rewrite lookup_insert_ne by done. by rewrite app_nil_r.
Qed.

(** X14.  Query parameters are merged additively: after the dispatcher has
    added the synthesized query to the query of the request, the values of
    every key are the values the request had, followed by the synthesized
    values of that key in their order; nothing is replaced or dropped. *)
Theorem addAll_is_additive (v : Values) (m : gmap string (list string)) (k : string) :
  default [] (valuesMap (addAll v m) !! k)
  = (default [] (valuesMap v !! k) ++ default [] (m !! k))%list.
Proof.
  unfold addAll. rewrite addAll_entries_fold by apply NoDup_fst_map_to_list.
  by rewrite list_to_map_to_list.
Qed.

(** ** Attempts *)



Lemma sendLoop_retry_then_success {H} `{RetryHandler H} (c : Client H) meta req resp :
  forall k h fuel trace,
    clearsRetries k h ->
    (forall j, j < k -> exists e, httpClient c (length trace + j) req = inl e) ->
    httpClient c (length trace + k) req = inr resp ->
    k < fuel ->
    exists h',
      sendLoop c meta req fuel trace (Some h) =
      mkCallResult (trace ++ repeat req (S k))
        (Some (returnRvals meta (handleResponse c meta (Some resp) None))) (Some h').
Proof.
  induction k as [| k IH]; intros h fuel trace Hclr Hfail Hok Hlt.
  - destruct fuel as [| fuel]; [lia |]. simpl.
    rewrite Nat.add_0_r in Hok. rewrite Hok. by exists h.
  - destruct fuel as [| fuel]; [lia |]. simpl.
    destruct (Hfail 0 ltac:(lia)) as [e He]. rewrite Nat.add_0_r in He. rewrite He.
    destruct (Hclr e) as (h1 & -> & Hclr1).
    destruct (IH h1 fuel (trace ++ [req])%list Hclr1) as [h' Hloop].
    + intros j Hj. destruct (Hfail (S j) ltac:(lia)) as [e' He'].
      exists e'. rewrite length_app. simpl. by replace (length trace + 1 + j) with (length trace + S j) by lia.
    + rewrite length_app. simpl. by replace (length trace + 1 + k) with (length trace + S k) by lia.
    + lia.
    + exists h'. rewrite Hloop. f_equal. by rewrite <- app_assoc.
Qed.

(** X17.  Retry, then success: when the transport fails on the first k
    attempts and answers on the next, and the handler clears k failures,
    the call makes k + 1 attempts and ends with what handleResponse makes
    of the answer; the earlier failures leave no trace in the result. *)
Theorem makeRequestFunc_retry_then_success {H} `{RetryHandler H} canon enc newReq
  (c : Client H) meta rho fuel args rm req h k resp :
  buildRequestMeta canon enc rho meta args = Ok (inr rm) ->
  newReq (rmMethod rm) (baseUrl c ++ rmPath rm) (rmBody rm) = inr req ->
  retryHandler c = Some h ->
  clearsRetries k h ->
  (forall j r, j < k -> exists e, httpClient c j r = inl e) ->
  (forall r, httpClient c k r = inr resp) ->
  k < fuel ->
  length (sent (makeRequestFunc canon enc newReq c meta rho fuel args)) = S k /\
  outcome (makeRequestFunc canon enc newReq c meta rho fuel args)
  = Some (returnRvals meta (handleResponse c meta (Some resp) None)).
Proof.
  intros Hb Hr Hh Hclr Hfail Hok Hlt. unfold makeRequestFunc. rewrite Hb, Hr, Hh.
  match goal with |- context [sendLoop c meta ?r fuel [] (Some h)] =>
    destruct (sendLoop_retry_then_success c meta r resp k h fuel [] Hclr) as [h' ->];
    [intros j Hj; apply Hfail, Hj | apply Hok | exact Hlt |]
  end.
  cbn [sent outcome app]. by rewrite repeat_length.
Qed.

Lemma makeRequestFunc_retry_then_success_witness :
  length (sent (makeRequestFunc Examples.plainKey Examples.plainEncode
                  Examples.newRequestOk Examples.flakyClient Examples.IndexMeta
                  canonicalOrder 3 Examples.abcArgs)) = 2 /\
  outcome (makeRequestFunc Examples.plainKey Examples.plainEncode
             Examples.newRequestOk Examples.flakyClient Examples.IndexMeta
             canonicalOrder 3 Examples.abcArgs)
  = Some (returnRvals Examples.IndexMeta
            (handleResponse Examples.flakyClient Examples.IndexMeta
               (Some (mkResponse (inr []))) None)).
Proof.
  apply (makeRequestFunc_retry_then_success Examples.plainKey Examples.plainEncode
           Examples.newRequestOk Examples.flakyClient Examples.IndexMeta canonicalOrder 3
           Examples.abcArgs Examples.abcMeta Examples.abcRequest
           (NewBasicRetryHandler 1) 1 (mkResponse (inr []))).
  - reflexivity.
  - reflexivity.
  - reflexivity.
  - intros e. eexists. split; [reflexivity | exact I].
  - intros j r Hj. exists "connection refused".
    destruct j as [| j]; [reflexivity | lia].
  - intros r. reflexivity.
  - lia.
Defined.

(** X18.  What handleResponse makes of an answer of the transport: the
    failure is unset exactly when the body could be read and either no
    unmarshaler is configured or the unmarshaler accepts the body; the
    payload is then the bytes as read, respectively the decoded instance of
    the declared payload type.  In every other case the payload is the zero
    value and the failure is the read or decode error. *)
Theorem handleResponse_answer {H} (c : Client H) meta resp :
  match respBody resp with
  | inl e => handleResponse c meta (Some resp) None = (PZero (returnType meta), Some e)
  | inr body =>
      match unmarshaler c with
      | None => handleResponse c meta (Some resp) None = (PBody body, None)
      | Some u =>
          (u body (returnType meta) = None ->
           handleResponse c meta (Some resp) None
           = (PInstance (returnType meta) body, None)) /\
          (forall e, u body (returnType meta) = Some e ->
           handleResponse c meta (Some resp) None = (PZero (returnType meta), Some e))
      end
  end /\
  (snd (handleResponse c meta (Some resp) None) = None <->
   exists body, respBody resp = inr body /\
     match unmarshaler c with
     | None => True
     | Some u => u body (returnType meta) = None
     end).
Proof.
  unfold handleResponse. destruct (respBody resp) as [e | body]; simpl.
  - split; [done |]. split; [discriminate | by intros (b & [=] & _)].
  - destruct (unmarshaler c) as [u |]; simpl.
    + destruct (u body (returnType meta)) as [e |] eqn:Hu; simpl.
      * split; [split; [discriminate | by intros e' [= <-]] |].
        split; [discriminate |]. intros (b & [= <-] & Hb). congruence.
      * split; [split; [done | discriminate] |].
        split; [| done]. intros _. by exists body.
    + split; [done |]. split; [| done]. intros _. by exists body.
Qed.

Lemma makeRequestFunc_failure_zero_witness :
  PZero TBytes = PZero (returnType Examples.IndexMeta).
Proof.
  apply (makeRequestFunc_failure_zero Examples.plainKey Examples.plainEncode
           Examples.newRequestOk Examples.plainClient Examples.IndexMeta canonicalOrder 1
           Examples.abcArgs (PZero TBytes) "connection refused").
  reflexivity.
Defined.


(** ** Streaming calls *)



(** ** The builder *)

Lemma runOps_from {H} (ops : list (BuilderOp H)) :
  forall b,
    b_requestTransformers (fold_left applyOp ops b)
    = (b_requestTransformers b ++ registered ops)%list.
Proof.
  induction ops as [| op ops IH]; intros b; simpl.
  - by rewrite app_nil_r.
  - rewrite IH. destruct op; simpl; try reflexivity. by rewrite <- app_assoc.
Qed.

(** X20.  Whatever chain of builder calls precedes Build, the client it
    gives always uses the default transport: a client passed to
    SetHttpClient is never used.  Build never fails, the transformers of
    the client are the registered ones in the order of registration, and
    applyRequestTransformers runs them in that order, each on the result of
    the one before. *)
Theorem Build_client {H} (ops : list (BuilderOp H)) defaultClient req :
  snd (Build defaultClient (runOps ops)) = None /\
  httpClient (fst (Build defaultClient (runOps ops))) = defaultClient /\
  requestTransformers (fst (Build defaultClient (runOps ops))) = registered ops /\
  applyRequestTransformers (fst (Build defaultClient (runOps ops))) req
  = fold_left (fun r t => t r) (registered ops) req /\
  (forall t, applyRequestTransformers
               (fst (Build defaultClient (runOps (ops ++ [OpAddRequestTransformer t])))) req
             = t (applyRequestTransformers (fst (Build defaultClient (runOps ops))) req)).
Proof.
  unfold Build, applyRequestTransformers, runOps. cbn [fst snd httpClient requestTransformers].
  rewrite !runOps_from. cbn [NewBuilder b_requestTransformers app].
  repeat split; try reflexivity.
  intros t. rewrite fold_left_app, runOps_from. cbn [fold_left applyOp AddRequestTransformer
    b_requestTransformers registered app].
  rewrite !runOps_from. cbn [NewBuilder b_requestTransformers app].
  by rewrite fold_left_app.
Qed.

(** ** Empty values, path fields and scalar stubs *)

(** X21.  What isEmptyValue takes for empty: false, the integers 0, the
    empty string, a nil byte slice and also a byte slice of length 0 that
    is not nil; a nil pointer; never a struct nor the invalid value. *)
Theorem isEmptyValue_cases :
  (forall x, isEmptyValue (VScalar x) = true <->
     x = SBool false \/ x = SInt 0 \/ x = SUint 0 \/ x = SString "" \/
     x = SBytes None \/ x = SBytes (Some [])) /\
  (forall t, isEmptyValue (VPtr t) = true <-> t = None) /\
  (forall fs, isEmptyValue (VStruct fs) = false) /\
  isEmptyValue VInvalid = false.
Proof.
  repeat split; try done.
  - destruct x as [[|] | z | n | s | [bs |]]; simpl; intros Hx; try discriminate.
    + by left.
    + apply Z.eqb_eq in Hx. subst. right. by left.
    + apply N.eqb_eq in Hx. subst. do 2 right. by left.
    + destruct s; [| discriminate]. do 3 right. by left.
    + destruct bs; [| discriminate]. do 5 right. done.
    + do 4 right. by left.
  - intros [-> | [-> | [-> | [-> | [-> | ->]]]]]; reflexivity.
  - destruct t; [discriminate | done].
  - by intros ->.
Qed.

Lemma stringsReplace_placeholder name new (pre post : string) :
  hasBrace pre = false ->
  stringsReplace (pre ++ "{" ++ name ++ "}" ++ post) ("{" ++ name ++ "}") new
  = pre ++ new ++ stringsReplace post ("{" ++ name ++ "}") new.
Proof.
  intros Hpre.
  change ("{" ++ name ++ "}") with (String (Ascii.ascii_of_nat 123) (name ++ "}")).
  cbn [stringsReplace].
  change (String (Ascii.ascii_of_nat 123) (name ++ "}" ++ post))
    with ("{" ++ name ++ "}" ++ post).
  rewrite replaceFrom_pre by done.
  assert (Heq : "{" ++ name ++ "}" ++ post
                = String (Ascii.ascii_of_nat 123) (name ++ "}") ++ post).
  { change (String (Ascii.ascii_of_nat 123) (name ++ ("}" ++ post))
            = String (Ascii.ascii_of_nat 123) ((name ++ "}") ++ post)).
    by rewrite string_app_assoc. }
  rewrite Heq. by rewrite replaceFrom_match.
Qed.

(** X22.  Substitution of an exported path-role field not tagged
    omitempty: in a template made of a part without braces, the placeholder of the field's
    external name and a rest, the placeholder is replaced by the printed
    value of the field, and so is every further occurrence in the rest. *)
Theorem applyPathFields_substitutes fs fn n x pre post :
  isExported fn = true ->
  OmitEmpty n = false ->
  lookupField fs fn = VScalar x ->
  hasBrace pre = false ->
  applyPathFields (VStruct fs) (pre ++ "{" ++ Name n ++ "}" ++ post) [(fn, n)]
  = Ok (pre ++ SprintScalar x
            ++ stringsReplace post ("{" ++ Name n ++ "}") (SprintScalar x)).
Proof.
  intros _ Ho Hf Hpre. cbn [applyPathFields]. rewrite Ho.
  cbn [IsValid negb andb orb]. unfold extractFieldValue.
  cbn [FieldByName bindE]. rewrite Hf. cbn [SprintInterface bindE].
  by rewrite stringsReplace_placeholder.
Qed.

Lemma applyPathFields_substitutes_witness :
  applyPathFields (VStruct [("Id", SInt 1234)])
    ("/pre/" ++ "{" ++ Name (mkArg "id" false) ++ "}" ++ "/post")
    [("Id", mkArg "id" false)]
  = Ok ("/pre/" ++ SprintScalar (SInt 1234)
          ++ stringsReplace "/post" ("{" ++ Name (mkArg "id" false) ++ "}")
               (SprintScalar (SInt 1234))).
Proof.
  apply (applyPathFields_substitutes [("Id", SInt 1234)] "Id" (mkArg "id" false)
           (SInt 1234) "/pre/" "/post").
  - reflexivity.
  - reflexivity.
  - reflexivity.
  - reflexivity.
Defined.

Lemma walkArgs_method canon rho meta :
  forall args i rm rm',
    walkArgs canon rho meta i args rm = Ok rm' -> rmMethod rm' = rmMethod rm.
Proof.
  induction args as [| arg rest IH]; intros i rm rm'; simpl.
  - by intros [= <-].
  - destruct (methodArgs meta !! i) as [[st osm] |]; [| discriminate].
    simpl. destruct st; simpl.
    + destruct osm as [sm |]; [| discriminate].
      destruct (applyPathFields _ _ _) as [p |]; simpl; [| discriminate].
      destruct (applyAdderFields _ (rmQuery rm) _) as [q |]; simpl; [| discriminate].
      destruct (applyAdderFields _ (rmFields rm) _) as [fl |]; simpl; [| discriminate].
      destruct (applyAdderFields _ (rmHeaders rm) _) as [h |]; simpl; [| discriminate].
      destruct (applyBodyField _ _ _) as [b |]; simpl; [| discriminate].
      intros Hw. by rewrite (IH _ _ _ Hw).
    + destruct (applyPathIndex arg (rmPath rm) i) as [p |]; simpl; [| discriminate].
      intros Hw. by rewrite (IH _ _ _ Hw).
Qed.

Lemma walkArgs_scalars_only canon rho meta :
  Forall (fun a => isStruct a = false) (methodArgs meta) ->
  forall args i rm rm',
    walkArgs canon rho meta i args rm = Ok rm' ->
    rmQuery rm' = rmQuery rm /\ rmFields rm' = rmFields rm /\
    rmHeaders rm' = rmHeaders rm /\ rmBody rm' = rmBody rm.
Proof.
  intros Hall. induction args as [| arg rest IH]; intros i rm rm'; simpl.
  - by intros [= <-].
  - destruct (methodArgs meta !! i) as [[st osm] |] eqn:Hl; [| discriminate].
    pose proof (Forall_lookup_1 _ _ _ _ Hall Hl) as Hst. simpl in Hst. subst st.
    simpl. destruct (applyPathIndex arg (rmPath rm) i) as [p |]; simpl; [| discriminate].
    intros Hw. apply (IH _ _ _ Hw).
Qed.

(** X23.  Synthesis never changes the method: the request carries the
    method of the descriptor.  For a stub whose parameters are all scalar,
    only the path is touched: the request has no query, no form field, no
    header and no body. *)
Theorem buildRequestMeta_method_and_scalars canon enc rho meta args rm :
  buildRequestMeta canon enc rho meta args = Ok (inr rm) ->
  rmMethod rm = method meta /\
  (Forall (fun a => isStruct a = false) (methodArgs meta) ->
   valuesMap (rmQuery rm) = ∅ /\ valuesMap (rmFields rm) = ∅ /\
   headerMap (rmHeaders rm) = ∅ /\ rmBody rm = None).
Proof.
  unfold buildRequestMeta.
  destruct (walkArgs canon rho meta 0 args (initialRequestMeta meta)) as [rm0 |] eqn:Hw;
    cbn [bindE]; [| discriminate].
  intros Hfin. injection Hfin as Hfin.
  pose proof (walkArgs_method canon rho meta _ _ _ _ Hw) as Hm. simpl in Hm.
  unfold finishRequestMeta in Hfin. split.
  - destruct (negb (Nat.eqb (size (valuesMap (rmFields rm0))) 0)).
    + destruct (rmBody rm0); [discriminate |]. injection Hfin as <-. exact Hm.
    + injection Hfin as <-. exact Hm.
  - intros Hall.
    destruct (walkArgs_scalars_only canon rho meta Hall _ _ _ _ Hw) as (Hq & Hf & Hh & Hb).
    simpl in Hq, Hf, Hh, Hb. rewrite Hf in Hfin. cbn [valuesMap] in Hfin.
    rewrite map_size_empty in Hfin. cbn [Nat.eqb negb] in Hfin.
    injection Hfin as Hrm. subst rm. by rewrite Hq, Hf, Hh, Hb.
Qed.

Lemma buildRequestMeta_method_and_scalars_witness :
  rmMethod Examples.abcMeta = method Examples.IndexMeta.
Proof.
  apply (proj1 (buildRequestMeta_method_and_scalars Examples.plainKey Examples.plainEncode
                  canonicalOrder Examples.IndexMeta Examples.abcArgs Examples.abcMeta
                  eq_refl)).
Defined.
